(** * led-screen-sync: the sampling-and-decision pipeline

    A shallow embedding of [main.go] (package [main]) and the properties
    of its colour analysis, change detection, statistics log and tray
    state machine.

    Conventions.
    - [uint8] values are integers of [Z] in [0, 256); arithmetic on them
      is followed by an explicit reduction modulo 256.
    - [int] values (pixel counts, image coordinates) are integers of [Z];
      they stay far below 2^63 for every image that fits in memory.
    - [float64] values are the binary64 floats of [PrimFloat].
    - Go's [map[RGB]int] is a [gmap RGB Z]; the order in which [range]
      visits a map is unspecified, so it is a permutation of the entries
      chosen by the environment. *)

From Stdlib Require Import ZArith Lia Floats Uint63 Ascii String.
From stdpp Require Import gmap list strings sorting pretty.

Local Open Scope Z_scope.

(** ** Colours *)

(** [type RGB struct { R, G, B uint8 }] *)
Record RGB := mkRGB { R : Z; G : Z; B : Z }.

Global Instance RGB_eq_dec : EqDecision RGB.
Proof. solve_decision. Defined.

Global Instance RGB_countable : Countable RGB.
Proof.
  refine (inj_countable' (fun c => (R c, G c, B c))
                         (fun '(r, g, b) => mkRGB r g b) _).
  by intros [].
Defined.

(** The values a [uint8] field can hold. *)
Definition is_uint8 (z : Z) : Prop := 0 <= z < 256.

Definition valid_RGB (c : RGB) : Prop :=
  is_uint8 (R c) /\ is_uint8 (G c) /\ is_uint8 (B c).

(** Truncation of an integer result to [uint8]. *)
Definition uint8 (z : Z) : Z := z mod 256.

(** [func quantizeRGB(c RGB, step uint8) RGB]; a zero [step] is an
    integer division by zero, a run-time panic ([None]). *)
Definition quantizeRGB (c : RGB) (step : Z) : option RGB :=
  if decide (step = 0) then None
  else Some {| R := uint8 (R c / step * step);
               G := uint8 (G c / step * step);
               B := uint8 (B c / step * step) |}.

(** [func isBlackOrWhite(c RGB) bool] *)
Definition isBlackOrWhite (c : RGB) : bool :=
  ((R c <=? 16) && (G c <=? 16) && (B c <=? 16))
  || ((R c >=? 240) && (G c >=? 240) && (B c >=? 240)).

(** Conversion [float64(n)] of an [int]; exact below 2^53. *)
Definition float64_of_int (z : Z) : float :=
  if z <? 0 then (- PrimFloat.of_uint63 (Uint63.of_Z (- z)))%float
  else PrimFloat.of_uint63 (Uint63.of_Z z).

(** The [int] expression [dr*dr + dg*dg + db*db] of [colorDistance]. *)
Definition squaredDistance (a b : RGB) : Z :=
  let dr := R a - R b in
  let dg := G a - G b in
  let db := B a - B b in
  dr * dr + dg * dg + db * db.

(** [func colorDistance(a, b RGB) float64] *)
Definition colorDistance (a b : RGB) : float :=
  float64_of_int (squaredDistance a b).

(** ** Images *)

(** [image.Rectangle], with [Min] and [Max] flattened. *)
Record Rectangle := mkRectangle
  { Min_X : Z; Min_Y : Z; Max_X : Z; Max_Y : Z }.

Definition Dx (r : Rectangle) : Z := Max_X r - Min_X r.
Definition Dy (r : Rectangle) : Z := Max_Y r - Min_Y r.

(** [image.Rect(x0, y0, x1, y1)]: swaps the coordinates when needed so
    that the rectangle is well formed. *)
Definition image_Rect (x0 y0 x1 y1 : Z) : Rectangle :=
  let '(x0, x1) := if x0 >? x1 then (x1, x0) else (x0, x1) in
  let '(y0, y1) := if y0 >? y1 then (y1, y0) else (y0, y1) in
  {| Min_X := x0; Min_Y := y0; Max_X := x1; Max_Y := y1 |}.

(** [image.Image]: its bounds and, for each point, the four [uint32]
    results of [At(x, y).RGBA()]. *)
Record Image := mkImage
  { Bounds : Rectangle; At : Z -> Z -> Z * Z * Z * Z }.

Section Downscale.

(** [draw.BiLinear.Scale(dst, dst.Bounds(), src, src.Bounds(),
    draw.Over, nil)] of golang.org/x/image: the pixels it leaves in
    [dst]. *)
Variable BiLinear_Scale : Rectangle -> Image -> Z -> Z -> Z * Z * Z * Z.

(** [func downscale(img image.Image) image.Image]; [/] on [int]
    truncates. *)
Definition downscale (img : Image) : Image :=
  let bounds := Bounds img in
  let w := Dx bounds ÷ 10 in
  let h := Dy bounds ÷ 10 in
  let w := if w <? 1 then 1 else w in
  let h := if h <? 1 then 1 else h in
  let resized := image_Rect 0 0 w h in
  {| Bounds := resized; At := BiLinear_Scale resized img |}.

End Downscale.

(** ** Frequency analysis *)

(** The colour read at one point:
    [r, g, b, _ := img.At(x, y).RGBA(); RGB{uint8(r >> 8), ...}]. *)
Definition pixelAt (img : Image) (x y : Z) : RGB :=
  let '(r, g, b, _) := At img x y in
  {| R := uint8 (r ≫ 8); G := uint8 (g ≫ 8); B := uint8 (b ≫ 8) |}.

(** The points visited by the nested loops
    [for y := Min.Y; y < Max.Y; y++ { for x := Min.X; x < Max.X; x++ ]
    in visiting order. *)
Definition pixels (img : Image) : list RGB :=
  let bounds := Bounds img in
  y ← seqZ (Min_Y bounds) (Max_Y bounds - Min_Y bounds);
  x ← seqZ (Min_X bounds) (Max_X bounds - Min_X bounds);
  [pixelAt img x y].

Definition quantStep : Z := 16.

(** [countMap[color]++] *)
Definition increment (color : RGB) (countMap : gmap RGB Z) : gmap RGB Z :=
  <[color := default 0 (countMap !! color) + 1]> countMap.

(** The first loop of [mostFrequentColor]: near-black and near-white
    buckets are skipped. *)
Fixpoint countFiltered (px : list RGB) (countMap : gmap RGB Z)
  : option (gmap RGB Z) :=
  match px with
  | [] => Some countMap
  | p :: rest =>
      color ← quantizeRGB p quantStep;
      if isBlackOrWhite color then countFiltered rest countMap
      else countFiltered rest (increment color countMap)
  end.

(** The fallback loop of [mostFrequentColor] and the loop of
    [topColors] (whose counter [total] is never read). *)
Fixpoint countAll (px : list RGB) (countMap : gmap RGB Z)
  : option (gmap RGB Z) :=
  match px with
  | [] => Some countMap
  | p :: rest =>
      color ← quantizeRGB p quantStep;
      countAll rest (increment color countMap)
  end.

(** One iteration of
    [for col, cnt := range countMap { if cnt > maxCount { ... } }]
    on the pair [(maxCount, mostColor)]. *)
Definition rangeMaxStep (acc : Z * RGB) (e : RGB * Z) : Z * RGB :=
  let '(maxCount, mostColor) := acc in
  let '(col, cnt) := e in
  if cnt >? maxCount then (cnt, col) else (maxCount, mostColor).

(** The whole loop, from [var maxCount int; var mostColor RGB]. *)
Definition rangeMax (order : list (RGB * Z)) : RGB :=
  snd (fold_left rangeMaxStep order (0, mkRGB 0 0 0)).

(** [sort.Slice] hands [less] two indices; here it is on the elements:
    [sorted[i].Count > sorted[j].Count]. *)
Definition kv_less (a b : RGB * Z) : bool := a.2 >? b.2.

(** What [sort.Slice] leaves behind: no element is [less] than one
    that stands before it. *)
Definition sorted_by (less : RGB * Z -> RGB * Z -> bool)
  : list (RGB * Z) -> Prop :=
  StronglySorted (fun a b => less b a = false).

Section Analyzer.

(** The order in which [range] visits the entries of a map. *)
Variable range : gmap RGB Z -> list (RGB * Z).

(** [sort.Slice(x, less)]: the slice after the call. *)
Variable sort_Slice :
  (RGB * Z -> RGB * Z -> bool) -> list (RGB * Z) -> list (RGB * Z).

(** The histogram [mostFrequentColor] searches. The fallback loop
    fills the same, empty, map. *)
Definition mostFrequentColor_countMap (img : Image)
  : option (gmap RGB Z) :=
  countMap ← countFiltered (pixels img) ∅;
  if decide (size countMap = 0%nat)
  then countAll (pixels img) countMap
  else Some countMap.

(** [func mostFrequentColor(img image.Image) RGB] *)
Definition mostFrequentColor (img : Image) : option RGB :=
  countMap ← mostFrequentColor_countMap img;
  Some (rangeMax (range countMap)).

(** [func topColors(img image.Image, topN int) []struct{Color; Count}];
    slicing [sorted[:topN]] with a negative [topN] panics. *)
Definition topColors (img : Image) (topN : Z) : option (list (RGB * Z)) :=
  countMap ← countAll (pixels img) ∅;
  let sorted := sort_Slice kv_less (range countMap) in
  if decide (Z.of_nat (length sorted) > topN)
  then if decide (topN < 0) then None
       else Some (take (Z.to_nat topN) sorted)
  else Some sorted.

End Analyzer.

(** A visiting order [range] may choose, and a sorting routine that
    honours the contract of [sort.Slice]. *)
Definition range_order (range : gmap RGB Z -> list (RGB * Z)) : Prop :=
  forall m, range m ≡ₚ map_to_list m.

Definition sort_contract
  (sort_Slice : (RGB * Z -> RGB * Z -> bool) ->
                list (RGB * Z) -> list (RGB * Z)) : Prop :=
  forall l, sort_Slice kv_less l ≡ₚ l /\ sorted_by kv_less (sort_Slice kv_less l).

(** One admissible pair, for running the analyzer: the map's own
    enumeration and a merge sort. *)
Definition range_canonical (m : gmap RGB Z) : list (RGB * Z) := map_to_list m.

Global Instance kv_order_dec (less : RGB * Z -> RGB * Z -> bool) (a b : RGB * Z) :
  Decision (less b a = false).
Proof. solve_decision. Defined.

Definition sort_merge (less : RGB * Z -> RGB * Z -> bool)
  (l : list (RGB * Z)) : list (RGB * Z) :=
  merge_sort (fun a b => less b a = false) l.

(** ** Colour statistics *)

(** [func colorName(c RGB) string] *)
Definition colorName (c : RGB) : string :=
  let '(r, g, b) := (R c, G c, B c) in
  if (r >? 200) && (g <? 80) && (b <? 80) then "light red"
  else if (r >? 150) && (g <? 80) && (b <? 80) then "red"
  else if (r >? 100) && (r <? 180) && (g >? 60) && (g <? 120) && (b <? 80)
       then "brown"
  else if (g >? 200) && (r >? 200) && (b <? 100) then "light yellow"
  else if (r >? 200) && (g >? 200) && (b <? 100) then "yellow"
  else if (g >? 200) && (r <? 100) && (b <? 100) then "light green"
  else if (g >? 150) && (r <? 100) && (b <? 100) then "green"
  else if (g >? 100) && (b >? 100) && (r <? 100) then "teal"
  else if (b >? 200) && (r <? 100) && (g <? 100) then "light blue"
  else if (b >? 100) && (r <? 80) && (g <? 80) then "dark blue"
  else if (b >? 200) && (r >? 200) && (g <? 100) then "pink"
  else if (r >? 200) && (g <? 100) && (b >? 200) then "magenta"
  else if (r <? 100) && (g >? 200) && (b >? 200) then "cyan"
  else if (r >? 200) && (g >? 200) && (b >? 200) then "white"
  else if (r <? 60) && (g <? 60) && (b <? 60) then "black"
  else if (r >? 180) && (g >? 100) && (b <? 100) then "orange"
  else if (r >? 180) && (g >? 100) && (b >? 100) then "peach"
  else if (r >? 150) && (g <? 100) && (b >? 100) then "violet"
  else "unknown color".

(** [type ColorStat struct]; the channel fields are prefixed, [R], [G]
    and [B] being the fields of [RGB]. *)
Record ColorStat := mkColorStat
  { stat_R : Z; stat_G : Z; stat_B : Z; Name : string; Percent : float }.

(** [type LogEntry struct] *)
Record LogEntry := mkLogEntry
  { Timestamp : string; ScreenSize : string; TopColors : list ColorStat }.

(** The first loop of [logTopColorsJSON]: one [ColorStat] per entry. *)
Definition colorStats (top : list (RGB * Z)) (totalPixels : Z)
  : list ColorStat :=
  map (fun entry =>
         {| stat_R := R entry.1; stat_G := G entry.1; stat_B := B entry.1;
            Name := colorName entry.1;
            Percent := (float64_of_int entry.2
                        / float64_of_int totalPixels * 100)%float |})
      top.

(** Sum of [float64] values, left to right. *)
Definition float_sum (l : list float) : float :=
  fold_left PrimFloat.add l 0%float.

(** ** Reference notions for the analyzer's properties *)

(** [quantizeRGB] at the step the analyzer uses. *)
Definition quantize16 (p : RGB) : RGB :=
  {| R := uint8 (R p / 16 * 16);
     G := uint8 (G p / 16 * 16);
     B := uint8 (B p / 16 * 16) |}.

(** How many elements of [l] are the colour [c]. *)
Definition occurrences (c : RGB) (l : list RGB) : Z :=
  Z.of_nat (length (filter (fun q => q = c) l)).

(** The quantized colours of an image, one per pixel, and those that
    are neither near-black nor near-white. *)
Definition quantized (img : Image) : list RGB := quantize16 <$> pixels img.

Definition kept (img : Image) : list RGB :=
  filter (fun q => isBlackOrWhite q = false) (quantized img).

(** [m] is the histogram of [l]. *)
Definition histogram_of (l : list RGB) (m : gmap RGB Z) : Prop :=
  forall c, m !! c = if decide (c ∈ l) then Some (occurrences c l) else None.

(** Sum of the counts of a ranked list. *)
Definition total_count (top : list (RGB * Z)) : Z :=
  foldr (fun e acc => e.2 + acc) 0 top.

(** An [*image.RGBA] on [image.Rect(0, 0, w, h)] with opaque pixels
    [pix x y]; its [RGBA()] widens an 8-bit channel [c] to the 16-bit
    [c * 0x101], and [At] is the zero colour outside the rectangle. *)
Definition rgbaImage (w h : Z) (pix : Z -> Z -> RGB) : Image :=
  let rect := image_Rect 0 0 w h in
  {| Bounds := rect;
     At := fun x y =>
             if (Min_X rect <=? x) && (x <? Max_X rect)
                && (Min_Y rect <=? y) && (y <? Max_Y rect)
             then let c := pix x y in
                  (R c * 257, G c * 257, B c * 257, 65535)
             else (0, 0, 0, 0) |}.

(** A 2x2 frame with one near-black and three near-white pixels. *)
Definition blackWhiteFrame : Image :=
  rgbaImage 2 2 (fun x y => if (x =? 0) && (y =? 0) then mkRGB 5 5 5
                            else mkRGB 250 250 250).

(** An 11x1 frame: two red pixels, then nine blue ones. *)
Definition redBlueFrame : Image :=
  rgbaImage 11 1 (fun x _ => if x <? 2 then mkRGB 200 0 0
                             else mkRGB 0 0 200).

(** A 3x1 frame: two near-black pixels, then a red one. *)
Definition darkRedFrame : Image :=
  rgbaImage 3 1 (fun x _ => if x <? 2 then mkRGB 5 5 5
                            else mkRGB 200 0 0).

(** A frame of [w] by [h] pixels, all of the colour [c]. *)
Definition solidFrame (w h : Z) (c : RGB) : Image :=
  rgbaImage w h (fun _ _ => c).

(** ** Change detection and the sampling cycle *)

(** [type Config struct] of config.go, its [Env] fields. *)
Record Config := mkConfig
  { HA_URL : string;
    HA_TOKEN : string;
    LED_ENTITY : string;
    EXPORT_JSON : bool;
    EXPORT_SCREENSHOT : bool;
    COLOR_CHANGE_THRESHOLD : float;
    UPDATE_INTERVAL_MS : Z }.

(** What one cycle does about the lighting controller: the call
    [setLEDState(r, g, b, brightness, token)], or one of the two
    branches that only log. *)
Inductive Emission :=
| setLEDState (r g b brightness : Z) (token : string)
| skippedNoToken
| skippedBelowThreshold.

(** The local [colorChangeThreshold := 32.0] of [colorUpdateLoop]. *)
Definition colorChangeThreshold : float := 32%float.

(** The flag [shouldCallHA] of a cycle, [threshold] standing for the
    local variable it is compared with; [dist >= threshold] on
    [float64]. *)
Definition shouldCallHA (threshold : float) (mostColor : RGB)
  (prevColor : option RGB) : bool :=
  match prevColor with
  | None => true
  | Some prev =>
      let dist := colorDistance mostColor prev in
      PrimFloat.leb threshold dist
  end.

(** The part of the body of [colorUpdateLoop] between the dominant
    colour and the statistics export: the emission and the new value of
    [prevColor]. A failed [setLEDState] is only logged. *)
Definition emissionStep (appConfig : Config) (mostColor : RGB)
  (prevColor : option RGB) : Emission * option RGB :=
  let shouldCall := shouldCallHA colorChangeThreshold mostColor prevColor in
  let token := HA_TOKEN appConfig in
  if decide (token = "") then (skippedNoToken, prevColor)
  else if shouldCall
       then (setLEDState (R mostColor) (G mostColor) (B mostColor) 255 token,
             Some mostColor)
       else (skippedBelowThreshold, prevColor).

(** Successive cycles on the dominant colours of successive frames. *)
Fixpoint runCycles (appConfig : Config) (prevColor : option RGB)
  (mostColors : list RGB) : list Emission :=
  match mostColors with
  | [] => []
  | mostColor :: rest =>
      let '(emission, prevColor') := emissionStep appConfig mostColor prevColor in
      emission :: runCycles appConfig prevColor' rest
  end.

(** [func colorUpdateLoop()], as far as emissions go: [var prevColor
    *RGB] is nil when the loop starts. *)
Definition colorUpdateLoop (appConfig : Config) (mostColors : list RGB)
  : list Emission :=
  runCycles appConfig None mostColors.

(** The configuration of the README, with a token. *)
Definition exampleConfig (threshold : float) : Config :=
  {| HA_URL := "http://your-homeassistant:8123";
     HA_TOKEN := "your-long-lived-access-token";
     LED_ENTITY := "light.your_led_strip";
     EXPORT_JSON := false;
     EXPORT_SCREENSHOT := false;
     COLOR_CHANGE_THRESHOLD := threshold;
     UPDATE_INTERVAL_MS := 100 |}.

(** ** Statistics log *)

Definition newline : ascii := "010"%char.

(** [bytes.Split(data, []byte{'\n'})]: the first line, and the others. *)
Fixpoint split_first (data : string) : string * list string :=
  match data with
  | EmptyString => (EmptyString, [])
  | String c rest =>
      let '(line, lines) := split_first rest in
      if Ascii.eqb c newline then (EmptyString, line :: lines)
      else (String c line, lines)
  end.

Definition bytes_Split_newline (data : string) : list string :=
  let '(line, lines) := split_first data in line :: lines.

(** What [logTopColorsJSON] returns: nil, or an error. *)
Inductive Outcome := returned_nil | returned_error.

Section StatisticsLog.

(** [json.Unmarshal(data, &entries)] into a [[]LogEntry] and
    [json.Unmarshal(line, &e)] into a [LogEntry]: the decoded value,
    or [None] for an error. *)
Variable json_Unmarshal_entries : string -> option (list LogEntry).
Variable json_Unmarshal_entry : string -> option LogEntry.

(** [enc.SetIndent("", "  "); enc.Encode(entries)]: the bytes
    written, or [None] for an error. *)
Variable json_Encode_indent : list LogEntry -> option string.

(** [bytes.TrimSpace] *)
Variable bytes_TrimSpace : string -> string.

(** The recovery loop over the lines of a file that is not a JSON
    array; [lines] is the slice being appended to. *)
Fixpoint recoverLines (rest : list string) (lines : list LogEntry)
  : list LogEntry :=
  match rest with
  | [] => lines
  | line :: rest =>
      if decide (String.length (bytes_TrimSpace line) = 0%nat)
      then recoverLines rest lines
      else match json_Unmarshal_entry line with
           | Some e => recoverLines rest (lines ++ [e])
           | None => recoverLines rest lines
           end
  end.

(** The entries read back; [file] is the result of [os.ReadFile],
    [None] for an error (such as a file that does not exist). *)
Definition readEntries (file : option string) : list LogEntry :=
  match file with
  | Some data =>
      if decide (0 < String.length data)%nat
      then match json_Unmarshal_entries data with
           | Some entries => entries
           | None => recoverLines (bytes_Split_newline data) []
           end
      else []
  | None => []
  end.

(** [func logTopColorsJSON(filename, bounds, top, totalPixels) error].
    [now] is [time.Now().Format(time.RFC3339)]; [open_ok] and
    [sync_ok] tell whether [os.OpenFile] and [f.Sync] succeed. The
    result is the file afterwards and the value returned. The file is
    truncated when it is opened, before anything is encoded. *)
Definition logTopColorsJSON (now : string) (open_ok sync_ok : bool)
  (file : option string) (bounds : Rectangle) (top : list (RGB * Z))
  (totalPixels : Z) : option string * Outcome :=
  let stats := colorStats top totalPixels in
  let logEntry :=
    {| Timestamp := now;
       ScreenSize := pretty (Dx bounds) +:+ "x" +:+ pretty (Dy bounds);
       TopColors := stats |} in
  let entries := readEntries file in
  let entries := entries ++ [logEntry] in
  if open_ok
  then match json_Encode_indent entries with
       | Some out => (Some out, if sync_ok then returned_nil else returned_error)
       | None => (Some EmptyString, returned_error)
       end
  else (file, returned_error).

End StatisticsLog.

(** The text whose lines are [lines]. *)
Fixpoint joinLines (lines : list string) : string :=
  match lines with
  | [] => EmptyString
  | [line] => line
  | line :: rest => line +:+ String newline (joinLines rest)
  end.

Fixpoint has_newline (s : string) : bool :=
  match s with
  | EmptyString => false
  | String c rest => Ascii.eqb c newline || has_newline rest
  end.

(** A stand-in codec for running the logger: an entry is a line that
    opens with a brace, kept as its own timestamp; nothing is an array;
    lines are trimmed of nothing. *)
Definition demo_Unmarshal_entry (line : string) : option LogEntry :=
  match line with
  | String "{"%char _ => Some (mkLogEntry line EmptyString [])
  | _ => None
  end.

Definition demo_Unmarshal_entries (_ : string) : option (list LogEntry) := None.

Definition demo_Encode (entries : list LogEntry) : option string :=
  Some ("[" +:+ joinLines (Timestamp <$> entries) +:+ "]").

Definition demo_TrimSpace (line : string) : string := line.

(** ** The tray state machine

    [onReady] starts one goroutine, the handler, that serves the menu
    clicks; each pass through its Start branch starts a goroutine
    running [colorUpdateLoop]. The two share the flag [running] and the
    unbuffered channel [quitChan]. The machine below interleaves their
    steps, reads and writes of [running] taking effect in program
    order. *)
Module Tray.

(** Where the handler goroutine stands: at its [select]; in the Start
    branch, after [running = true] and before [go colorUpdateLoop()];
    blocked in [quitChan <- struct{}{}]; or gone with the process. *)
Inductive Handler := AtSelect | Starting | SendingQuit | Exited.

(** Where a [colorUpdateLoop] goroutine stands: at the test of
    [for running], inside the body, or at the [select] that ends an
    iteration. A goroutine that has returned is no longer listed. *)
Inductive LoopPoint := AtGuard | InBody | AtWait.

Record State := mkState
  { running : bool; handler : Handler; loops : list LoopPoint }.

(** [running = false], the handler just started, no loop. *)
Definition initial : State :=
  {| running := false; handler := AtSelect; loops := [] |}.

Inductive Event :=
| ClickStart | ClickStop | ClickQuit | ClickTurnOn | ClickTurnOff
| SpawnLoop                       (* [go colorUpdateLoop()] *)
| TestGuard (i : nat)             (* loop [i] evaluates [for running] *)
| FinishBody (i : nat)            (* loop [i] reaches its [select] *)
| FatalInBody (i : nat)           (* [logger.Fatal]: the process exits *)
| ReceiveQuit (i : nat)           (* [case <-quitChan: return] *)
| TimerFires (i : nat).           (* [case <-time.After(interval):] *)

Definition exit (s : State) : State :=
  {| running := running s; handler := Exited; loops := [] |}.

Definition set_loops (s : State) (l : list LoopPoint) : State :=
  {| running := running s; handler := handler s; loops := l |}.

(** The state after an event, [None] when the event cannot happen. *)
Definition next (s : State) (e : Event) : option State :=
  match e with
  | ClickStart =>
      match handler s with
      | AtSelect =>
          if negb (running s)
          then Some {| running := true; handler := Starting;
                       loops := loops s |}
          else Some s
      | _ => None
      end
  | SpawnLoop =>
      match handler s with
      | Starting =>
          Some {| running := running s; handler := AtSelect;
                  loops := loops s ++ [AtGuard] |}
      | _ => None
      end
  | ClickStop =>
      match handler s with
      | AtSelect =>
          if running s
          then Some {| running := false; handler := SendingQuit;
                       loops := loops s |}
          else Some s
      | _ => None
      end
  | ClickTurnOn | ClickTurnOff =>
      match handler s with
      | AtSelect => Some s
      | _ => None
      end
  | ClickQuit =>
      match handler s with
      | AtSelect => Some (exit s)
      | _ => None
      end
  | TestGuard i =>
      match loops s !! i with
      | Some AtGuard =>
          if running s
          then Some (set_loops s (<[i := InBody]> (loops s)))
          else Some (set_loops s (delete i (loops s)))
      | _ => None
      end
  | FinishBody i =>
      match loops s !! i with
      | Some InBody => Some (set_loops s (<[i := AtWait]> (loops s)))
      | _ => None
      end
  | FatalInBody i =>
      match loops s !! i with
      | Some InBody => Some (exit s)
      | _ => None
      end
  | ReceiveQuit i =>
      match handler s, loops s !! i with
      | SendingQuit, Some AtWait =>
          Some {| running := running s; handler := AtSelect;
                  loops := delete i (loops s) |}
      | _, _ => None
      end
  | TimerFires i =>
      match loops s !! i with
      | Some AtWait => Some (set_loops s (<[i := AtGuard]> (loops s)))
      | _ => None
      end
  end.

(** The state after a sequence of events. *)
Fixpoint run (s : State) (events : list Event) : option State :=
  match events with
  | [] => Some s
  | e :: rest => s' ← next s e; run s' rest
  end.

Definition reachable (s : State) : Prop :=
  exists events, run initial events = Some s.

(** What links the handler's position, the flag and the loops. *)
Definition consistent (s : State) : Prop :=
  match handler s with
  | AtSelect =>
      if running s then (length (loops s) <= 1)%nat else loops s = []
  | Starting => running s = true /\ loops s = []
  | SendingQuit => running s = false /\ (length (loops s) <= 1)%nat
  | Exited => loops s = []
  end.

(** The flag tells the truth while the handler is idle: one loop is
    alive when it is set, none when it is not. *)
Definition synchronized (s : State) : Prop :=
  match handler s with
  | AtSelect =>
      if running s then length (loops s) = 1%nat else loops s = []
  | Starting => running s = true /\ loops s = []
  | SendingQuit => running s = false /\ (length (loops s) <= 1)%nat
  | Exited => loops s = []
  end.

End Tray.

(** ** Further reference notions *)

(** A colour whose channels are multiples of 16 within [0, 240]: a
    bucket of the analyzer. *)
Definition bucket_RGB (c : RGB) : Prop :=
  ((16 | R c) /\ 0 <= R c <= 240)
  /\ ((16 | G c) /\ 0 <= G c <= 240)
  /\ ((16 | B c) /\ 0 <= B c <= 240).

(** [f] holds of the [n] integers from [z] on. *)
Fixpoint all_from (n : nat) (z : Z) (f : Z -> bool) : bool :=
  match n with
  | O => true
  | S k => f z && all_from k (z + 1) f
  end.

(** The names [colorName] can return. *)
Definition returned_names : list string :=
  ["light red"; "red"; "brown"; "light yellow"; "light green"; "green";
   "teal"; "light blue"; "dark blue"; "pink"; "white"; "black"; "orange";
   "peach"; "violet"; "unknown color"].

(** What [float64(d)] must satisfy for an integer [d]: it is at least
    the loop's threshold exactly when [d >= 32], and zero exactly when
    [d = 0]. *)
Definition distance_check (d : Z) : bool :=
  Bool.eqb (PrimFloat.leb colorChangeThreshold (float64_of_int d)) (32 <=? d)
  && Bool.eqb (PrimFloat.eqb (float64_of_int d) 0) (d =? 0).

(** The emissions of a loop that sends a colour exactly when it is not
    the one of the frame before. *)
Fixpoint emissions_on_change (token : string) (prevColor : option RGB)
  (mostColors : list RGB) : list Emission :=
  match mostColors with
  | [] => []
  | c :: rest =>
      (if decide (prevColor = Some c) then skippedBelowThreshold
       else setLEDState (R c) (G c) (B c) 255 token)
      :: emissions_on_change token (Some c) rest
  end.

(** [func maskToken(token string) string]; [len] and the slices
    [token[:4]], [token[len(token)-4:]] count bytes. *)
Definition maskToken (token : string) : string :=
  if decide (String.length token <= 8)%nat then "********"
  else substring 0 4 token +:+ "..."
       +:+ substring (String.length token - 4) 4 token.

(** A [float64] that is neither NaN nor infinite: what
    [encoding/json] accepts. *)
Definition finite_float (f : float) : bool :=
  match Prim2SF f with
  | S754_zero _ | S754_finite _ _ _ => true
  | _ => false
  end.

(** Entries all of whose percentages are finite. *)
Definition encodable (entries : list LogEntry) : bool :=
  forallb (fun e => forallb (fun stat => finite_float (Percent stat))
                            (TopColors e))
          entries.

(** The stand-in encoder, refusing what [encoding/json] refuses. *)
Definition demo_Encode_strict (entries : list LogEntry) : option string :=
  if encodable entries then demo_Encode entries else None.

(** ** Reference notions on the frame itself *)

(** The point [(x, y)] lies in the rectangle [r]. *)
Definition in_bounds (r : Rectangle) (x y : Z) : Prop :=
  (Min_X r <= x < Max_X r) /\ (Min_Y r <= y < Max_Y r).

(** The points of a rectangle, each once. *)
Definition points (r : Rectangle) : list (Z * Z) :=
  y ← seqZ (Min_Y r) (Dy r); x ← seqZ (Min_X r) (Dx r); [(x, y)].

(** The bucket of a 16-bit channel value: its bits 12 to 15, which are
    the four high bits of the 8-bit channel, times 16. *)
Definition channel_bucket (v : Z) : Z := v / 4096 mod 16 * 16.

(** The bucket of the colour at a point, from what [At(x, y).RGBA()]
    gives there. *)
Definition point_bucket (img : Image) (x y : Z) : RGB :=
  let '(r, g, b, _) := At img x y in
  mkRGB (channel_bucket r) (channel_bucket g) (channel_bucket b).

(** Near-black: every channel at most 16; near-white: every channel at
    least 240. *)
Definition near_black_or_white (c : RGB) : Prop :=
  (R c <= 16 /\ G c <= 16 /\ B c <= 16)
  \/ (240 <= R c /\ 240 <= G c /\ 240 <= B c).

(** How many points of the image have the bucket [c]. *)
Definition bucket_count (img : Image) (c : RGB) : Z :=
  Z.of_nat (length (filter (fun pt => point_bucket img pt.1 pt.2 = c)
                           (points (Bounds img)))).

(** The sum of the squared channel differences of two colours. *)
Definition squared_differences (a b : RGB) : Z :=
  (R a - R b) ^ 2 + (G a - G b) ^ 2 + (B a - B b) ^ 2.

(** Bounds of a screen: every coordinate within 32768 of the origin.
    On such bounds no [int] operation of [downscale] wraps around and
    the image it allocates has at most 6553 x 6553 pixels. *)
Definition screen_sized (r : Rectangle) : Prop :=
  (-32768 <= Min_X r <= 32768) /\ (-32768 <= Max_X r <= 32768)
  /\ (-32768 <= Min_Y r <= 32768) /\ (-32768 <= Max_Y r <= 32768).

(** * Properties *)

(** ** Quantizer *)

Lemma uint8_small z : is_uint8 z -> uint8 z = z.
Proof. intros Hz. unfold uint8. apply Z.mod_small. exact Hz. Qed.

Lemma quantize_channel z :
  is_uint8 z ->
  uint8 (z / 16 * 16) = z / 16 * 16
  /\ (16 | z / 16 * 16)
  /\ z / 16 * 16 <= z
  /\ 0 <= z / 16 * 16 <= 240.
Proof.
  intros [Hlo Hhi].
  assert (Hq : 0 <= z / 16 <= 15).
  { split; [apply Z.div_pos; lia|].
    apply Z.lt_succ_r. apply Z.div_lt_upper_bound; lia. }
  assert (Hm : z / 16 * 16 <= z).
  { rewrite Z.mul_comm. apply Z.mul_div_le. lia. }
  split; [apply uint8_small; unfold is_uint8; lia|].
  split; [exists (z / 16); reflexivity|].
  split; [exact Hm | lia].
Qed.

Lemma quantizeRGB_16 c :
  quantizeRGB c 16 =
  Some {| R := uint8 (R c / 16 * 16);
          G := uint8 (G c / 16 * 16);
          B := uint8 (B c / 16 * 16) |}.
Proof. reflexivity. Qed.

(** C8. For every 8-bit pixel [p], [quantizeRGB p 16] returns a colour
    whose channels are [(channel / 16) * 16] under floor division: each
    is divisible by 16, at most the input channel and within [0, 240]. *)
Theorem quantizeRGB_step16 (p : RGB) :
  valid_RGB p ->
  exists q, quantizeRGB p 16 = Some q
    /\ R q = R p / 16 * 16 /\ G q = G p / 16 * 16 /\ B q = B p / 16 * 16
    /\ ((16 | R q) /\ (16 | G q) /\ (16 | B q))
    /\ (R q <= R p /\ G q <= G p /\ B q <= B p)
    /\ (0 <= R q <= 240 /\ 0 <= G q <= 240 /\ 0 <= B q <= 240).
Proof.
  intros (Hr & Hg & Hb).
  destruct (quantize_channel _ Hr) as (Er & Dr & Lr & Br).
  destruct (quantize_channel _ Hg) as (Eg & Dg & Lg & Bg).
  destruct (quantize_channel _ Hb) as (Eb & Db & Lb & Bb).
  eexists. split; [apply quantizeRGB_16|]. cbn [R G B].
  rewrite Er, Eg, Eb. repeat split; assumption || lia.
Qed.

Lemma quantizeRGB_step16_witness :
  valid_RGB (mkRGB 123 234 56)
  /\ exists q, quantizeRGB (mkRGB 123 234 56) 16 = Some q
       /\ R q = 123 / 16 * 16 /\ G q = 234 / 16 * 16 /\ B q = 56 / 16 * 16
       /\ ((16 | R q) /\ (16 | G q) /\ (16 | B q))
       /\ (R q <= 123 /\ G q <= 234 /\ B q <= 56)
       /\ (0 <= R q <= 240 /\ 0 <= G q <= 240 /\ 0 <= B q <= 240).
Proof.
  assert (Hv : valid_RGB (mkRGB 123 234 56)).
  { unfold valid_RGB, is_uint8; cbn; lia. }
  split; [exact Hv|].
  exact (quantizeRGB_step16 (mkRGB 123 234 56) Hv).
Defined.

(** ** Downscaler *)

(** C7. For an image of width and height at least 1, [downscale] returns
    an image of exactly max(1, w/10) by max(1, h/10) under floor
    division, never zero-sized; 100x100 gives 10x10 and 5x5 gives 1x1. *)
Theorem downscale_dimensions
  (scale : Rectangle -> Image -> Z -> Z -> Z * Z * Z * Z) (img : Image) :
  1 <= Dx (Bounds img) -> 1 <= Dy (Bounds img) ->
  let out := Bounds (downscale scale img) in
  Dx out = Z.max 1 (Dx (Bounds img) / 10)
  /\ Dy out = Z.max 1 (Dy (Bounds img) / 10)
  /\ 1 <= Dx out /\ 1 <= Dy out
  /\ (Dx (Bounds img) = 100 -> Dy (Bounds img) = 100 ->
      Dx out = 10 /\ Dy out = 10)
  /\ (Dx (Bounds img) = 5 -> Dy (Bounds img) = 5 ->
      Dx out = 1 /\ Dy out = 1).
Proof.
  intros Hw Hh. unfold downscale. cbn zeta. cbn [Bounds].
  rewrite !Z.quot_div_nonneg by lia.
  set (w := Dx (Bounds img) / 10). set (h := Dy (Bounds img) / 10).
  assert (Hw0 : 0 <= w) by (apply Z.div_pos; lia).
  assert (Hh0 : 0 <= h) by (apply Z.div_pos; lia).
  assert (Ew : Dx (image_Rect 0 0 (if w <? 1 then 1 else w)
                                  (if h <? 1 then 1 else h)) = Z.max 1 w
            /\ Dy (image_Rect 0 0 (if w <? 1 then 1 else w)
                                  (if h <? 1 then 1 else h)) = Z.max 1 h).
  { unfold image_Rect, Dx, Dy.
    destruct (Z.ltb_spec w 1), (Z.ltb_spec h 1);
      repeat match goal with
             | |- context [?a >? ?b] => destruct (Z.gtb_spec a b); try lia
             end; cbn; lia. }
  destruct Ew as [Ew Eh]. rewrite Ew, Eh.
  split; [reflexivity|]. split; [reflexivity|].
  split; [lia|]. split; [lia|].
  subst w h. split; intros -> ->; split; reflexivity.
Qed.

Lemma downscale_dimensions_witness :
  let scale := fun (_ : Rectangle) src x y => At src (10 * x) (10 * y) in
  let img := mkImage (mkRectangle 0 0 1920 1080)
                     (fun _ _ => (0, 0, 0, 65535)) in
  Dx (Bounds (downscale scale img)) = 192
  /\ Dy (Bounds (downscale scale img)) = 108.
Proof.
  intros scale img.
  assert (Hw : 1 <= Dx (Bounds img)) by (unfold img, Dx; cbn; lia).
  assert (Hh : 1 <= Dy (Bounds img)) by (unfold img, Dy; cbn; lia).
  destruct (downscale_dimensions scale img Hw Hh) as (Hx & Hy & _).
  split; [exact Hx | exact Hy].
Defined.

(** ** Histograms *)

Lemma quantizeRGB_quantStep p : quantizeRGB p quantStep = Some (quantize16 p).
Proof. reflexivity. Qed.

Lemma occurrences_nonneg c l : 0 <= occurrences c l.
Proof. unfold occurrences. lia. Qed.

Lemma occurrences_app c l1 l2 :
  occurrences c (l1 ++ l2) = occurrences c l1 + occurrences c l2.
Proof. unfold occurrences. rewrite filter_app, length_app. lia. Qed.

Lemma occurrences_singleton c q :
  occurrences c [q] = if decide (q = c) then 1 else 0.
Proof.
  unfold occurrences. cbn. destruct (decide (q = c)); reflexivity.
Qed.

Lemma occurrences_elem_of c l : c ∈ l <-> 0 < occurrences c l.
Proof.
  unfold occurrences. split.
  - intros Hin.
    assert (Hc : c ∈ filter (fun q => q = c) l)
      by (apply list_elem_of_filter; split; [reflexivity | exact Hin]).
    destruct (filter (fun q => q = c) l); [inversion Hc | cbn; lia].
  - intros Hpos.
    destruct (filter (fun q => q = c) l) as [|q rest] eqn:E; [cbn in Hpos; lia|].
    assert (Hq : q ∈ filter (fun q => q = c) l) by (rewrite E; left).
    apply list_elem_of_filter in Hq as [-> Hq]. exact Hq.
Qed.

Lemma occurrences_not_elem_of c l : c ∉ l -> occurrences c l = 0.
Proof.
  intros Hn. pose proof (occurrences_nonneg c l).
  destruct (decide (0 < occurrences c l)) as [Hp|Hp]; [|lia].
  apply occurrences_elem_of in Hp. contradiction.
Qed.

Lemma histogram_of_nil : histogram_of [] ∅.
Proof.
  intros c. rewrite lookup_empty.
  destruct (decide (c ∈ [])) as [Hin|]; [inversion Hin | reflexivity].
Qed.

Lemma histogram_of_increment l m q :
  histogram_of l m -> histogram_of (l ++ [q]) (increment q m).
Proof.
  intros H c. unfold increment.
  rewrite occurrences_app, occurrences_singleton.
  destruct (decide (q = c)) as [->|Hne].
  - rewrite lookup_insert_eq, H.
    rewrite (decide_True (P := c ∈ l ++ [c]))
      by (apply elem_of_app; right; left).
    destruct (decide (c ∈ l)) as [Hin|Hin]; cbn.
    + reflexivity.
    + rewrite (occurrences_not_elem_of _ _ Hin). reflexivity.
  - rewrite lookup_insert_ne by exact Hne. rewrite H.
    destruct (decide (c ∈ l)) as [Hin|Hin].
    + rewrite (decide_True (P := c ∈ l ++ [q]))
        by (apply elem_of_app; left; exact Hin).
      f_equal. lia.
    + rewrite (decide_False (P := c ∈ l ++ [q])); [reflexivity|].
      intros [?|Hq%list_elem_of_singleton]%elem_of_app; congruence.
Qed.

Lemma countAll_histogram px : forall l m,
  histogram_of l m ->
  exists m', countAll px m = Some m'
             /\ histogram_of (l ++ (quantize16 <$> px)) m'.
Proof.
  induction px as [|p rest IH]; intros l m H; cbn [countAll].
  - exists m. rewrite app_nil_r. split; [reflexivity | exact H].
  - rewrite quantizeRGB_quantStep. cbn [mbind option_bind].
    destruct (IH _ _ (histogram_of_increment _ _ (quantize16 p) H))
      as (m' & Hm' & Hh).
    exists m'. split; [exact Hm'|].
    rewrite fmap_cons, cons_middle, app_assoc. exact Hh.
Qed.

Lemma countFiltered_histogram px : forall l m,
  histogram_of l m ->
  exists m', countFiltered px m = Some m'
             /\ histogram_of
                  (l ++ filter (fun q => isBlackOrWhite q = false)
                               (quantize16 <$> px)) m'.
Proof.
  induction px as [|p rest IH]; intros l m H; cbn [countFiltered].
  - exists m. cbn. rewrite app_nil_r. split; [reflexivity | exact H].
  - rewrite quantizeRGB_quantStep. cbn [mbind option_bind].
    rewrite fmap_cons, filter_cons.
    destruct (isBlackOrWhite (quantize16 p)) eqn:Ebw.
    + rewrite decide_False by discriminate. apply IH, H.
    + rewrite decide_True by reflexivity.
      destruct (IH _ _ (histogram_of_increment _ _ (quantize16 p) H))
        as (m' & Hm' & Hh).
      exists m'. split; [exact Hm'|].
      rewrite cons_middle, app_assoc. exact Hh.
Qed.

Lemma histogram_of_entry l m c n :
  histogram_of l m -> (m !! c = Some n <-> c ∈ l /\ n = occurrences c l).
Proof.
  intros H. rewrite H. destruct (decide (c ∈ l)) as [Hin|Hin].
  - split; [intros [= <-]; auto | intros [_ ->]; reflexivity].
  - split; [discriminate | intros [? _]; contradiction].
Qed.

Lemma histogram_of_empty l m : histogram_of l m -> (size m = 0%nat <-> l = []).
Proof.
  intros H. rewrite map_size_empty_iff. split.
  - intros ->. destruct l as [|c l]; [reflexivity|].
    specialize (H c). rewrite lookup_empty in H.
    rewrite decide_True in H by left. discriminate.
  - intros ->. apply map_eq. intros c. rewrite H, lookup_empty.
    destruct (decide (c ∈ [])) as [Hin|]; [inversion Hin | reflexivity].
Qed.

(** ** The search for the maximum *)

Lemma fold_rangeMax order : forall maxCount mostColor,
  let r := fold_left rangeMaxStep order (maxCount, mostColor) in
  maxCount <= r.1
  /\ (forall e, e ∈ order -> e.2 <= r.1)
  /\ (r = (maxCount, mostColor) \/ (r.2, r.1) ∈ order).
Proof.
  induction order as [|[col cnt] rest IH]; intros maxCount mostColor; cbn zeta.
  - cbn. split; [lia|]. split; [|left; reflexivity].
    intros e He. inversion He.
  - cbn [fold_left rangeMaxStep].
    destruct (Z.gtb_spec cnt maxCount) as [Hgt|Hle].
    + destruct (IH cnt col) as (H1 & H2 & H3).
      split; [lia|]. split.
      * intros e [->|He]%elem_of_cons; [exact H1 | apply H2, He].
      * right. destruct H3 as [->|H3]; [left | right; exact H3].
    + destruct (IH maxCount mostColor) as (H1 & H2 & H3).
      split; [exact H1|]. split.
      * intros e [->|He]%elem_of_cons; [cbn; lia | apply H2, He].
      * destruct H3 as [H3|H3]; [left; exact H3 | right; right; exact H3].
Qed.

Lemma rangeMax_maximum order :
  order <> [] -> (forall e, e ∈ order -> 0 < e.2) ->
  exists n, (rangeMax order, n) ∈ order /\ forall e, e ∈ order -> e.2 <= n.
Proof.
  intros Hne Hpos. unfold rangeMax.
  destruct (fold_rangeMax order 0 (mkRGB 0 0 0)) as (_ & H2 & H3).
  cbn zeta in H2, H3.
  destruct (fold_left rangeMaxStep order (0, mkRGB 0 0 0)) as [mx mc] eqn:E.
  cbn [fst snd] in *. exists mx. split; [|exact H2].
  destruct H3 as [[= -> ->]|H3]; [|exact H3].
  destruct order as [|e rest]; [contradiction|].
  pose proof (Hpos e ltac:(left)). pose proof (H2 e ltac:(left)). lia.
Qed.

Lemma range_entry range m e :
  range_order range -> (e ∈ range m <-> m !! e.1 = Some e.2).
Proof.
  intros Hr. rewrite (Hr m). destruct e as [c n]. apply elem_of_map_to_list.
Qed.

Lemma rangeMax_histogram range l m :
  range_order range -> histogram_of l m -> l <> [] ->
  rangeMax (range m) ∈ l
  /\ forall c', occurrences c' l <= occurrences (rangeMax (range m)) l.
Proof.
  intros Hr Hh Hne.
  assert (Hin : forall e, e ∈ range m <-> e.1 ∈ l /\ e.2 = occurrences e.1 l).
  { intros e. rewrite (range_entry _ _ _ Hr). apply histogram_of_entry, Hh. }
  destruct (rangeMax_maximum (range m)) as (n & Hmax & Hall).
  - destruct l as [|c l]; [contradiction|].
    assert (Hc : (c, occurrences c (c :: l)) ∈ range m)
      by (apply Hin; split; [left | reflexivity]).
    intros E. rewrite E in Hc. inversion Hc.
  - intros e [He1 He2]%Hin. rewrite He2. apply occurrences_elem_of, He1.
  - apply Hin in Hmax as [Hmax1 Hmax2]. cbn [fst snd] in *.
    split; [exact Hmax1|]. intros c'. rewrite <- Hmax2.
    destruct (decide (c' ∈ l)) as [Hc'|Hc'].
    + apply (Hall (c', occurrences c' l)). apply Hin. split; [exact Hc' | reflexivity].
    + rewrite (occurrences_not_elem_of _ _ Hc'). subst n.
      apply occurrences_nonneg.
Qed.

(** ** Pixels of an image *)

Lemma length_bind_const {A B} (f : A -> list B) (k : nat) (l : list A) :
  (forall a, length (f a) = k) -> length (l ≫= f) = (length l * k)%nat.
Proof.
  intros Hf. induction l as [|a l IH]; [reflexivity|].
  rewrite bind_cons, length_app, IH, Hf. cbn. lia.
Qed.

Lemma length_pixels img :
  length (pixels img)
  = (Z.to_nat (Dy (Bounds img)) * Z.to_nat (Dx (Bounds img)))%nat.
Proof.
  unfold pixels. cbn zeta.
  rewrite (length_bind_const _ (Z.to_nat (Dx (Bounds img)))).
  - rewrite length_seqZ. reflexivity.
  - intros y. rewrite (length_bind_const _ 1%nat) by reflexivity.
    rewrite length_seqZ. unfold Dx. lia.
Qed.

Lemma quantized_nonempty img :
  0 < Dx (Bounds img) -> 0 < Dy (Bounds img) -> quantized img <> [].
Proof.
  intros Hx Hy E. apply (f_equal length) in E.
  unfold quantized in E. rewrite length_fmap, length_pixels in E.
  cbn in E. nia.
Qed.

(** ** Dominant colour *)

Lemma isBlackOrWhite_spec (c : RGB) :
  isBlackOrWhite c = true <->
  (R c <= 16 /\ G c <= 16 /\ B c <= 16)
  \/ (240 <= R c /\ 240 <= G c /\ 240 <= B c).
Proof.
  unfold isBlackOrWhite.
  rewrite orb_true_iff, !andb_true_iff, !Z.leb_le, !Z.geb_le. tauto.
Qed.

Lemma range_canonical_order : range_order range_canonical.
Proof. intros m. reflexivity. Qed.

(** The fallback path on [blackWhiteFrame]: nothing is kept, and the
    white bucket wins. *)
Example mostFrequentColor_blackWhiteFrame :
  kept blackWhiteFrame = []
  /\ mostFrequentColor range_canonical blackWhiteFrame
     = Some (mkRGB 240 240 240).
Proof. split; vm_compute; reflexivity. Qed.

(** ** Ranked colours *)

Lemma sum_indicator_le (q : RGB) (ks : list RGB) :
  NoDup ks ->
  foldr (fun c acc => (if decide (q = c) then 1 else 0) + acc) 0 ks <= 1.
Proof.
  induction 1 as [|c ks Hc Hnd IH]; cbn; [lia|].
  destruct (decide (q = c)) as [->|Hne]; [|lia].
  assert (E : foldr (fun c' acc => (if decide (c = c') then 1 else 0) + acc) 0 ks
              = 0); [|lia].
  clear IH Hnd. induction ks as [|c' ks IH]; cbn; [reflexivity|].
  rewrite decide_False by (intros ->; apply Hc; left).
  rewrite IH; [reflexivity|]. intros Hin. apply Hc. right. exact Hin.
Qed.

Lemma sum_occurrences_le (ks l : list RGB) :
  NoDup ks ->
  foldr (fun c acc => occurrences c l + acc) 0 ks <= Z.of_nat (length l).
Proof.
  intros Hnd. induction l as [|q l IH].
  - assert (E : foldr (fun c acc => occurrences c [] + acc) 0 ks = 0);
      [|cbn; lia].
    clear Hnd. induction ks as [|c ks IHk]; cbn; [reflexivity|].
    unfold occurrences at 1. cbn. exact IHk.
  - assert (E : foldr (fun c acc => occurrences c (q :: l) + acc) 0 ks
                = foldr (fun c acc => (if decide (q = c) then 1 else 0) + acc) 0 ks
                  + foldr (fun c acc => occurrences c l + acc) 0 ks).
    { clear. induction ks as [|c ks IHk]; cbn [foldr]; [reflexivity|].
      rewrite IHk.
      change (q :: l) with ([q] ++ l).
      rewrite occurrences_app, occurrences_singleton. lia. }
    rewrite E. pose proof (sum_indicator_le q ks Hnd).
    cbn [length]. lia.
Qed.

Lemma total_count_occurrences (top : list (RGB * Z)) (l : list RGB) :
  (forall c k, (c, k) ∈ top -> k = occurrences c l) ->
  total_count top = foldr (fun c acc => occurrences c l + acc) 0 (top.*1).
Proof.
  induction top as [|[c k] top IH]; intros H; cbn; [reflexivity|].
  rewrite <- (H c k) by left. unfold total_count in IH. rewrite IH; [reflexivity|].
  intros c' k' Hin. apply H. right. exact Hin.
Qed.

Lemma StronglySorted_weaken {A} (P Q : A -> A -> Prop) (l : list A) :
  (forall a b, P a b -> Q a b) -> StronglySorted P l -> StronglySorted Q l.
Proof.
  intros HPQ. induction 1 as [|a l Hs IH Hall]; constructor; [exact IH|].
  eapply Forall_impl; [exact Hall|]. intros b. apply HPQ.
Qed.

Lemma topColors_take range sort_Slice img n :
  0 <= n ->
  topColors range sort_Slice img n
  = (countMap ← countAll (pixels img) ∅;
     Some (take (Z.to_nat n) (sort_Slice kv_less (range countMap)))).
Proof.
  intros Hn. unfold topColors.
  destruct (countAll (pixels img) ∅) as [m|]; [|reflexivity].
  cbn [mbind option_bind].
  destruct (decide (Z.of_nat (length (sort_Slice kv_less (range m))) > n)).
  - rewrite decide_False by lia. reflexivity.
  - rewrite take_ge by lia. reflexivity.
Qed.

(** C6 (as amended). For every image and every [n >= 0], [topColors]
    returns at most [n] entries, sorted non-increasing by count, with
    distinct colours; each entry carries the number of pixels of the
    whole image (near-black and near-white included) whose quantized
    colour it is; a colour of the image is left out only when [n]
    entries with counts at least its own are returned; and the counts
    sum to at most the number of pixels, which is [Dx * Dy], the
    [totalPixels] the percentages divide by. *)
Theorem topColors_ranked
  (range : gmap RGB Z -> list (RGB * Z))
  (sort_Slice : (RGB * Z -> RGB * Z -> bool) -> list (RGB * Z) -> list (RGB * Z))
  (img : Image) (n : Z) :
  range_order range -> sort_contract sort_Slice -> 0 <= n ->
  exists top, topColors range sort_Slice img n = Some top
    /\ Z.of_nat (length top) <= n
    /\ StronglySorted (fun a b => b.2 <= a.2) top
    /\ NoDup (top.*1)
    /\ (forall c k, (c, k) ∈ top ->
          c ∈ quantized img /\ k = occurrences c (quantized img))
    /\ (forall c, c ∈ quantized img ->
          (c, occurrences c (quantized img)) ∈ top
          \/ (Z.of_nat (length top) = n
              /\ forall e, e ∈ top -> occurrences c (quantized img) <= e.2))
    /\ total_count top <= Z.of_nat (length (pixels img))
    /\ (0 <= Dx (Bounds img) -> 0 <= Dy (Bounds img) ->
        total_count top <= Dx (Bounds img) * Dy (Bounds img)).
Proof.
  intros Hr Hsort Hn. rewrite topColors_take by exact Hn.
  destruct (countAll_histogram (pixels img) [] ∅ histogram_of_nil)
    as (m & Hm & Hh).
  rewrite app_nil_l in Hh. fold (quantized img) in Hh.
  rewrite Hm. cbn [mbind option_bind].
  destruct (Hsort (range m)) as [Hperm Hsorted].
  set (sorted := sort_Slice kv_less (range m)) in *.
  assert (Hall : sorted ≡ₚ map_to_list m) by (rewrite Hperm; apply Hr).
  set (top := take (Z.to_nat n) sorted).
  assert (Hsplit : sorted = top ++ drop (Z.to_nat n) sorted)
    by (symmetry; apply take_drop).
  assert (Hentry : forall c k, (c, k) ∈ top ->
            c ∈ quantized img /\ k = occurrences c (quantized img)).
  { intros c k Hin. apply (histogram_of_entry _ _ _ _ Hh).
    apply elem_of_map_to_list. rewrite <- Hall.
    apply (subseteq_take (Z.to_nat n)). exact Hin. }
  assert (Hnd : NoDup (top.*1)).
  { assert (Hs : NoDup (sorted.*1))
      by (rewrite Hall; apply NoDup_fst_map_to_list).
    rewrite Hsplit, fmap_app in Hs. apply NoDup_app in Hs as [Hs _]. exact Hs. }
  assert (Hsum : total_count top <= Z.of_nat (length (pixels img))).
  { rewrite (total_count_occurrences top (quantized img))
      by (intros c k Hin; apply (Hentry c k Hin)).
    pose proof (sum_occurrences_le (top.*1) (quantized img) Hnd) as Hle.
    unfold quantized in Hle at 2. rewrite length_fmap in Hle. exact Hle. }
  exists top. split; [reflexivity|].
  split; [subst top; rewrite length_take; lia|].
  split.
  { unfold sorted_by in Hsorted. rewrite Hsplit in Hsorted.
    apply StronglySorted_app_1_l in Hsorted.
    eapply StronglySorted_weaken; [|exact Hsorted].
    intros a b. unfold kv_less. cbn beta. intros Hgt.
    destruct (Z.gtb_spec b.2 a.2); [discriminate | lia]. }
  split; [exact Hnd|]. split; [exact Hentry|].
  split.
  { intros c Hc.
    assert (Hin : (c, occurrences c (quantized img)) ∈ sorted).
    { rewrite Hall. apply elem_of_map_to_list.
      apply (histogram_of_entry _ _ _ _ Hh). split; [exact Hc | reflexivity]. }
    rewrite Hsplit in Hin. apply elem_of_app in Hin as [Hin|Hin];
      [left; exact Hin | right].
    split.
    - subst top. rewrite length_take.
      destruct (decide (length sorted <= Z.to_nat n)%nat) as [Hle|Hgt]; [|lia].
      rewrite drop_ge in Hin by exact Hle. inversion Hin.
    - intros e He. unfold sorted_by in Hsorted. rewrite Hsplit in Hsorted.
      pose proof (StronglySorted_app_1_elem_of _ _ _ _ _ Hsorted He Hin) as Hr'.
      unfold kv_less in Hr'. cbn [snd] in Hr'.
      destruct (Z.gtb_spec (occurrences c (quantized img)) e.2);
        [discriminate | lia]. }
  split; [exact Hsum|].
  intros Hx Hy. rewrite length_pixels in Hsum. nia.
Qed.

Lemma sort_merge_contract : sort_contract sort_merge.
Proof.
  assert (Htrans : Transitive (fun a b : RGB * Z => kv_less b a = false)).
  { intros a b c. unfold kv_less.
    destruct (Z.gtb_spec b.2 a.2), (Z.gtb_spec c.2 b.2), (Z.gtb_spec c.2 a.2);
      intros; (reflexivity || discriminate || lia). }
  assert (Htotal : Total (fun a b : RGB * Z => kv_less b a = false)).
  { intros a b. unfold kv_less.
    destruct (Z.gtb_spec b.2 a.2), (Z.gtb_spec a.2 b.2);
      (left; reflexivity) || (right; reflexivity) || lia. }
  intros l. unfold sort_merge, sorted_by. split.
  - apply merge_sort_Permutation.
  - apply StronglySorted_merge_sort; assumption.
Qed.

Lemma topColors_ranked_witness :
  exists top, topColors range_canonical sort_merge redBlueFrame 10 = Some top
    /\ Z.of_nat (length top) <= 10
    /\ StronglySorted (fun a b => b.2 <= a.2) top
    /\ NoDup (top.*1)
    /\ (forall c k, (c, k) ∈ top ->
          c ∈ quantized redBlueFrame
          /\ k = occurrences c (quantized redBlueFrame))
    /\ (forall c, c ∈ quantized redBlueFrame ->
          (c, occurrences c (quantized redBlueFrame)) ∈ top
          \/ (Z.of_nat (length top) = 10
              /\ forall e, e ∈ top ->
                   occurrences c (quantized redBlueFrame) <= e.2))
    /\ total_count top <= Z.of_nat (length (pixels redBlueFrame))
    /\ (0 <= Dx (Bounds redBlueFrame) -> 0 <= Dy (Bounds redBlueFrame) ->
        total_count top
        <= Dx (Bounds redBlueFrame) * Dy (Bounds redBlueFrame)).
Proof.
  apply (topColors_ranked range_canonical sort_merge redBlueFrame 10).
  - exact range_canonical_order.
  - exact sort_merge_contract.
  - lia.
Defined.

(** C6, as first stated, fails on the percentages: the ones
    [logTopColorsJSON] derives are [float64] values, each rounded twice. On the 11-pixel frame the two entries come out
    as 81.81818181818183 and 18.181818181818183, that is
    5757442705445237 / 2^46 and 5117726849284655 / 2^48. Their sum is
    above 100, both as a [float64] sum and as an exact sum. *)
Lemma topColors_percent_sum_above_100 :
  let top := [(mkRGB 0 0 192, 9); (mkRGB 192 0 0, 2)] in
  let totalPixels := Dx (Bounds redBlueFrame) * Dy (Bounds redBlueFrame) in
  range_order range_canonical /\ sort_contract sort_merge /\ 0 <= 10
  /\ topColors range_canonical sort_merge redBlueFrame 10 = Some top
  /\ totalPixels = 11
  /\ Prim2SF <$> (Percent <$> colorStats top totalPixels)
     = [S754_finite false 5757442705445237 (-46);
        S754_finite false 5117726849284655 (-48)]
  /\ 100 * 2 ^ 48 < 5757442705445237 * 2 ^ 2 + 5117726849284655
  /\ PrimFloat.leb (float_sum (Percent <$> colorStats top totalPixels)) 100
     = false.
Proof.
  intros top totalPixels.
  split; [exact range_canonical_order|].
  split; [exact sort_merge_contract|].
  split; [lia|].
  split; [vm_compute; reflexivity|].
  split; [vm_compute; reflexivity|].
  split; [vm_compute; reflexivity|].
  split; [lia | vm_compute; reflexivity].
Qed.

(** ** Change detector *)

Lemma squaredDistance_refl c : squaredDistance c c = 0.
Proof. unfold squaredDistance. cbn zeta. lia. Qed.

Lemma positive_threshold_above_zero (t : float) :
  PrimFloat.ltb 0 t = true -> PrimFloat.leb t 0 = false.
Proof.
  rewrite FloatAxioms.ltb_spec, FloatAxioms.leb_spec.
  change (Prim2SF 0) with (S754_zero false).
  destruct (Prim2SF t) as [s|s| |s m e]; try destruct s; cbn; congruence.
Qed.

Lemma emissionStep_first appConfig mostColor :
  HA_TOKEN appConfig <> "" ->
  emissionStep appConfig mostColor None
  = (setLEDState (R mostColor) (G mostColor) (B mostColor) 255
                 (HA_TOKEN appConfig), Some mostColor).
Proof.
  intros Htoken. unfold emissionStep.
  rewrite decide_False by exact Htoken. reflexivity.
Qed.

Lemma emissionStep_same appConfig mostColor :
  HA_TOKEN appConfig <> "" ->
  emissionStep appConfig mostColor (Some mostColor)
  = (skippedBelowThreshold, Some mostColor).
Proof.
  intros Htoken. unfold emissionStep.
  rewrite decide_False by exact Htoken.
  cbn [shouldCallHA]. unfold colorDistance.
  rewrite squaredDistance_refl. reflexivity.
Qed.

(** C2. The cycle never reads [COLOR_CHANGE_THRESHOLD]: whatever the
    configured value, the comparison is with the constant 32.0. With
    1000.0 configured, a change at squared distance 768 is emitted. *)
Theorem configured_threshold_unused :
  (forall appConfig threshold mostColor prevColor,
     emissionStep
       {| HA_URL := HA_URL appConfig; HA_TOKEN := HA_TOKEN appConfig;
          LED_ENTITY := LED_ENTITY appConfig;
          EXPORT_JSON := EXPORT_JSON appConfig;
          EXPORT_SCREENSHOT := EXPORT_SCREENSHOT appConfig;
          COLOR_CHANGE_THRESHOLD := threshold;
          UPDATE_INTERVAL_MS := UPDATE_INTERVAL_MS appConfig |}
       mostColor prevColor
     = emissionStep appConfig mostColor prevColor)
  /\ colorDistance (mkRGB 16 16 16) (mkRGB 0 0 0) = 768%float
  /\ PrimFloat.leb 1000 768 = false
  /\ emissionStep (exampleConfig 1000) (mkRGB 16 16 16) (Some (mkRGB 0 0 0))
     = (setLEDState 16 16 16 255 (HA_TOKEN (exampleConfig 1000)),
        Some (mkRGB 16 16 16)).
Proof.
  split; [intros; reflexivity|].
  repeat split; vm_compute; reflexivity.
Qed.

(** ** Statistics log *)

Lemma split_first_line (line : string) :
  has_newline line = false -> split_first line = (line, []).
Proof.
  induction line as [|c line IH]; cbn; [reflexivity|].
  intros [Hc Hl]%orb_false_iff. rewrite (IH Hl), Hc. reflexivity.
Qed.

Lemma split_first_append (line rest : string) :
  has_newline line = false ->
  split_first (line +:+ String newline rest)
  = (line, bytes_Split_newline rest).
Proof.
  unfold bytes_Split_newline.
  induction line as [|c line IH].
  - intros _. change (EmptyString +:+ String newline rest)
      with (String newline rest).
    cbn. destruct (split_first rest) as [l ls]. reflexivity.
  - cbn [has_newline]. intros [Hc Hl]%orb_false_iff.
    change (String c line +:+ String newline rest)
      with (String c (line +:+ String newline rest)).
    cbn [split_first]. rewrite (IH Hl).
    destruct (split_first rest) as [l ls]. rewrite Hc. reflexivity.
Qed.

Lemma bytes_Split_joinLines (lines : list string) :
  lines <> [] ->
  Forall (fun line => has_newline line = false) lines ->
  bytes_Split_newline (joinLines lines) = lines.
Proof.
  intros Hne Hall. induction Hall as [|line rest Hline Hrest IH];
    [contradiction|].
  destruct rest as [|line' rest].
  - cbn. unfold bytes_Split_newline. rewrite (split_first_line _ Hline).
    reflexivity.
  - change (joinLines (line :: line' :: rest))
      with (line +:+ String newline (joinLines (line' :: rest))).
    unfold bytes_Split_newline at 1.
    rewrite (split_first_append _ _ Hline), IH by discriminate.
    reflexivity.
Qed.

Lemma recoverLines_omap
  (json_Unmarshal_entry : string -> option LogEntry)
  (bytes_TrimSpace : string -> string) :
  (forall line, String.length (bytes_TrimSpace line) = 0%nat ->
                json_Unmarshal_entry line = None) ->
  forall rest lines,
    recoverLines json_Unmarshal_entry bytes_TrimSpace rest lines
    = lines ++ omap json_Unmarshal_entry rest.
Proof.
  intros Hblank. induction rest as [|line rest IH]; intros lines; cbn.
  - rewrite app_nil_r. reflexivity.
  - destruct (decide (String.length (bytes_TrimSpace line) = 0%nat)) as [Hb|Hb].
    + rewrite (Hblank _ Hb). apply IH.
    + destruct (json_Unmarshal_entry line) as [e|]; [|apply IH].
      rewrite IH, <- app_assoc. reflexivity.
Qed.

(** C3. Appending to the statistics log, when opening, encoding and
    syncing succeed. An absent or empty file becomes the encoding of the
    one-element array of the new entry. A file that does not decode as
    an array is read line by line: every line that decodes as an entry
    is kept, in the order of the lines, the others are dropped without
    an error, and the new entry comes last. A file that decodes as an
    array keeps its entries, followed by the new one. In each case the
    file is replaced as a whole by one encoded array and nil is
    returned. Blank lines never decode. *)
Theorem logTopColorsJSON_append
  (json_Unmarshal_entries : string -> option (list LogEntry))
  (json_Unmarshal_entry : string -> option LogEntry)
  (json_Encode_indent : list LogEntry -> option string)
  (bytes_TrimSpace : string -> string)
  (now : string) (bounds : Rectangle) (top : list (RGB * Z)) (totalPixels : Z) :
  (forall line, String.length (bytes_TrimSpace line) = 0%nat ->
                json_Unmarshal_entry line = None) ->
  let append :=
    fun file =>
      logTopColorsJSON json_Unmarshal_entries json_Unmarshal_entry
        json_Encode_indent bytes_TrimSpace now true true file bounds top
        totalPixels in
  let logEntry :=
    {| Timestamp := now;
       ScreenSize := pretty (Dx bounds) +:+ "x" +:+ pretty (Dy bounds);
       TopColors := colorStats top totalPixels |} in
  (forall file out,
     file = None \/ file = Some EmptyString ->
     json_Encode_indent [logEntry] = Some out ->
     append file = (Some out, returned_nil))
  /\ (forall lines out,
        Forall (fun line => has_newline line = false) lines ->
        joinLines lines <> EmptyString ->
        json_Unmarshal_entries (joinLines lines) = None ->
        json_Encode_indent (omap json_Unmarshal_entry lines ++ [logEntry])
          = Some out ->
        append (Some (joinLines lines)) = (Some out, returned_nil))
  /\ (forall data entries out,
        data <> EmptyString ->
        json_Unmarshal_entries data = Some entries ->
        json_Encode_indent (entries ++ [logEntry]) = Some out ->
        append (Some data) = (Some out, returned_nil)).
Proof.
  intros Hblank append logEntry. subst append. unfold logTopColorsJSON.
  fold logEntry.
  assert (Hlen : forall data, data <> EmptyString -> (0 < String.length data)%nat).
  { intros [|c data] Hd; [contradiction | cbn; lia]. }
  split; [|split].
  - intros file out [->| ->] Henc; cbn [readEntries].
    + rewrite app_nil_l, Henc. reflexivity.
    + rewrite decide_False by (cbn; lia). rewrite app_nil_l, Henc.
      reflexivity.
  - intros lines out Hall Hne Harr Henc. cbn [readEntries].
    rewrite decide_True by (apply Hlen, Hne). rewrite Harr.
    rewrite bytes_Split_joinLines; [|intros ->; apply Hne; reflexivity | exact Hall].
    rewrite (recoverLines_omap _ _ Hblank). rewrite app_nil_l, Henc.
    reflexivity.
  - intros data entries out Hne Harr Henc. cbn [readEntries].
    rewrite decide_True by (apply Hlen, Hne). rewrite Harr, Henc.
    reflexivity.
Qed.

Lemma demo_blank_line (line : string) :
  String.length (demo_TrimSpace line) = 0%nat -> demo_Unmarshal_entry line = None.
Proof. destruct line; [reflexivity | discriminate]. Qed.

Lemma logTopColorsJSON_append_witness :
  let lines := ["{a}"; "not json"; ""; "{b}"] in
  Forall (fun line => has_newline line = false) lines
  /\ joinLines lines <> EmptyString
  /\ demo_Unmarshal_entries (joinLines lines) = None
  /\ logTopColorsJSON demo_Unmarshal_entries demo_Unmarshal_entry demo_Encode
       demo_TrimSpace "now" true true (Some (joinLines lines))
       (mkRectangle 0 0 11 1) [(mkRGB 0 0 192, 9); (mkRGB 192 0 0, 2)] 11
     = (Some ("[" +:+ joinLines ["{a}"; "{b}"; "now"] +:+ "]"), returned_nil).
Proof.
  intros lines.
  assert (Hall : Forall (fun line => has_newline line = false) lines)
    by (repeat constructor).
  assert (Hne : joinLines lines <> EmptyString) by discriminate.
  split; [exact Hall|]. split; [exact Hne|]. split; [reflexivity|].
  apply (proj1 (proj2 (logTopColorsJSON_append
                         demo_Unmarshal_entries demo_Unmarshal_entry demo_Encode
                         demo_TrimSpace "now" (mkRectangle 0 0 11 1)
                         [(mkRGB 0 0 192, 9); (mkRGB 192 0 0, 2)] 11
                         demo_blank_line)) lines _ Hall Hne);
    reflexivity.
Defined.

(** ** Tray state machine *)

Lemma delete_only_loop (l : list Tray.LoopPoint) (i : nat) (p : Tray.LoopPoint) :
  (length l <= 1)%nat -> l !! i = Some p -> delete i l = [].
Proof.
  destruct l as [|q [|q' l]]; cbn; intros Hlen Hi.
  - discriminate.
  - destruct i; [reflexivity | discriminate].
  - lia.
Qed.

Lemma lookup_no_loop (i : nat) : (@nil Tray.LoopPoint) !! i = None.
Proof. destruct i; reflexivity. Qed.

Lemma tray_next_consistent (s s' : Tray.State) (e : Tray.Event) :
  Tray.consistent s -> Tray.next s e = Some s' -> Tray.consistent s'.
Proof.
  destruct s as [r h l]. destruct h, r; unfold Tray.consistent; cbn;
    intros Hc Hn; destruct e; cbn in Hn;
    try match type of Hn with
        | context [l !! ?i] => destruct (l !! i) as [[]|] eqn:E
        end;
    cbn in Hn; try discriminate; injection Hn as <-; cbn;
    repeat match goal with H : _ /\ _ |- _ => destruct H end;
    try subst l;
    try (rewrite lookup_no_loop in E; discriminate);
    rewrite ?length_insert;
    try (erewrite delete_only_loop by eassumption);
    repeat split; try reflexivity; try assumption; try discriminate;
    cbn; lia.
Qed.

Lemma tray_run_consistent (events : list Tray.Event) : forall s s',
  Tray.consistent s -> Tray.run s events = Some s' -> Tray.consistent s'.
Proof.
  induction events as [|e rest IH]; intros s s' Hc Hrun; cbn in Hrun.
  - injection Hrun as <-. exact Hc.
  - destruct (Tray.next s e) as [s1|] eqn:E; [|discriminate].
    cbn in Hrun. eapply IH; [|exact Hrun].
    eapply tray_next_consistent; eassumption.
Qed.

Lemma tray_consistent_one_loop (s : Tray.State) :
  Tray.consistent s -> (length (Tray.loops s) <= 1)%nat.
Proof.
  unfold Tray.consistent. destruct (Tray.handler s), (Tray.running s);
    intros H; repeat match goal with
                     | H : _ /\ _ |- _ => destruct H
                     | H : Tray.loops s = [] |- _ => rewrite H; cbn; lia
                     end; assumption.
Qed.

(** C9. A Start click served while [running] is set changes nothing: no
    second loop is started. In every state the machine can reach, at
    most one [colorUpdateLoop] is alive. *)
Theorem tray_single_sampling_loop :
  (forall s, Tray.running s = true -> Tray.handler s = Tray.AtSelect ->
             Tray.next s Tray.ClickStart = Some s)
  /\ (forall s, Tray.reachable s -> (length (Tray.loops s) <= 1)%nat).
Proof.
  split.
  - intros s Hr Hh. unfold Tray.next. rewrite Hh, Hr. reflexivity.
  - intros s [events Hrun]. apply tray_consistent_one_loop.
    eapply tray_run_consistent; [|exact Hrun]. reflexivity.
Qed.

Lemma tray_single_sampling_loop_witness :
  let events := [Tray.ClickStart; Tray.SpawnLoop; Tray.TestGuard 0;
                 Tray.FinishBody 0; Tray.ClickStart] in
  let s := Tray.mkState true Tray.AtSelect [Tray.AtWait] in
  Tray.run Tray.initial events = Some s
  /\ Tray.next s Tray.ClickStart = Some s
  /\ (length (Tray.loops s) <= 1)%nat.
Proof.
  intros events s.
  assert (Hrun : Tray.run Tray.initial events = Some s) by reflexivity.
  split; [exact Hrun|]. split.
  - apply (proj1 tray_single_sampling_loop s); reflexivity.
  - apply (proj2 tray_single_sampling_loop s). exists events. exact Hrun.
Defined.


(** * Further properties *)

(** ** Quantizer at any step *)

Lemma quantize_channel_step (z step : Z) :
  is_uint8 z -> 0 < step < 256 ->
  uint8 (z / step * step) = z / step * step
  /\ (step | z / step * step)
  /\ z - step < z / step * step <= z
  /\ is_uint8 (z / step * step).
Proof.
  intros [Hlo Hhi] Hs.
  assert (Hm : z - step < z / step * step <= z).
  { pose proof (Z.mul_div_le z step ltac:(lia)).
    pose proof (Z.mul_succ_div_gt z step ltac:(lia)). lia. }
  assert (Hq : 0 <= z / step) by (apply Z.div_pos; lia).
  assert (Hr : is_uint8 (z / step * step)) by (unfold is_uint8; nia).
  split; [apply uint8_small, Hr|].
  split; [exists (z / step); reflexivity|].
  split; [exact Hm | exact Hr].
Qed.

(** X1. [quantizeRGB] panics exactly at step 0. At any other step an
    8-bit pixel is mapped, without wrap-around, to the multiple of the
    step just below each channel: divisible by the step, at most the
    channel and less than one step under it. *)
Theorem quantizeRGB_any_step (p : RGB) (step : Z) :
  valid_RGB p -> is_uint8 step ->
  (quantizeRGB p step = None <-> step = 0)
  /\ (step <> 0 ->
      exists q, quantizeRGB p step = Some q /\ valid_RGB q
        /\ (R q = R p / step * step /\ (step | R q) /\ R p - step < R q <= R p)
        /\ (G q = G p / step * step /\ (step | G q) /\ G p - step < G q <= G p)
        /\ (B q = B p / step * step /\ (step | B q) /\ B p - step < B q <= B p)).
Proof.
  intros (Hr & Hg & Hb) Hstep. unfold quantizeRGB.
  destruct (decide (step = 0)) as [->|Hne].
  - split; [split; reflexivity | intros H; contradiction].
  - split; [split; [discriminate | contradiction]|]. intros _.
    assert (Hs : 0 < step < 256) by (unfold is_uint8 in Hstep; lia).
    destruct (quantize_channel_step _ _ Hr Hs) as (Er & Dr & Lr & Vr).
    destruct (quantize_channel_step _ _ Hg Hs) as (Eg & Dg & Lg & Vg).
    destruct (quantize_channel_step _ _ Hb Hs) as (Eb & Db & Lb & Vb).
    eexists. split; [reflexivity|]. cbn [R G B]. rewrite Er, Eg, Eb.
    split; [repeat split; apply Vr || apply Vg || apply Vb|].
    repeat split; assumption || lia.
Qed.

Lemma quantizeRGB_any_step_witness :
  valid_RGB (mkRGB 123 234 56) /\ is_uint8 50
  /\ quantizeRGB (mkRGB 123 234 56) 50 = Some (mkRGB 100 200 50).
Proof.
  assert (Hv : valid_RGB (mkRGB 123 234 56))
    by (unfold valid_RGB, is_uint8; cbn; lia).
  assert (Hs : is_uint8 50) by (unfold is_uint8; lia).
  split; [exact Hv|]. split; [exact Hs|].
  destruct (proj2 (quantizeRGB_any_step _ _ Hv Hs) ltac:(discriminate))
    as (q & Hq & _ & (Hr & _) & (Hg & _) & (Hb & _)).
  rewrite Hq. destruct q as [r g b]. cbn in Hr, Hg, Hb. subst. reflexivity.
Defined.

(** X2. Quantizing is idempotent: a quantized pixel is its own
    quantization at the same step. *)
Theorem quantizeRGB_idempotent (p q : RGB) (step : Z) :
  valid_RGB p -> is_uint8 step ->
  quantizeRGB p step = Some q -> quantizeRGB q step = Some q.
Proof.
  intros (Hr & Hg & Hb) Hstep. unfold quantizeRGB.
  destruct (decide (step = 0)) as [|Hne]; [discriminate|].
  assert (Hs : 0 < step < 256) by (unfold is_uint8 in Hstep; lia).
  destruct (quantize_channel_step _ _ Hr Hs) as (Er & _ & _ & Vr).
  destruct (quantize_channel_step _ _ Hg Hs) as (Eg & _ & _ & Vg).
  destruct (quantize_channel_step _ _ Hb Hs) as (Eb & _ & _ & Vb).
  intros [= <-]. cbn [R G B]. rewrite Er, Eg, Eb.
  rewrite !Z.div_mul by exact Hne.
  rewrite Er, Eg, Eb. reflexivity.
Qed.

Lemma quantizeRGB_idempotent_witness :
  quantizeRGB (mkRGB 112 224 48) 16 = Some (mkRGB 112 224 48).
Proof.
  apply (quantizeRGB_idempotent (mkRGB 123 234 56) (mkRGB 112 224 48) 16).
  - unfold valid_RGB, is_uint8; cbn; lia.
  - unfold is_uint8; lia.
  - reflexivity.
Defined.

(** X3. Which pixels the dominant-colour search skips: a pixel whose
    bucket is near-black or near-white is one with all channels below
    32, or all channels at least 240. *)
Theorem skipped_pixels (p q : RGB) :
  valid_RGB p -> quantizeRGB p quantStep = Some q ->
  (isBlackOrWhite q = true <->
     (R p < 32 /\ G p < 32 /\ B p < 32)
     \/ (240 <= R p /\ 240 <= G p /\ 240 <= B p)).
Proof.
  intros (Hr & Hg & Hb). rewrite quantizeRGB_quantStep. intros [= <-].
  rewrite isBlackOrWhite_spec. unfold quantize16. cbn [R G B].
  destruct (quantize_channel _ Hr) as (Er & _).
  destruct (quantize_channel _ Hg) as (Eg & _).
  destruct (quantize_channel _ Hb) as (Eb & _).
  rewrite Er, Eg, Eb. unfold is_uint8 in *.
  Z.to_euclidean_division_equations. lia.
Qed.

Lemma skipped_pixels_witness :
  isBlackOrWhite (mkRGB 16 16 16) = true
  <-> (31 < 32 /\ 20 < 32 /\ 17 < 32) \/ (240 <= 31 /\ 240 <= 20 /\ 240 <= 17).
Proof.
  apply (skipped_pixels (mkRGB 31 20 17) (mkRGB 16 16 16)).
  - unfold valid_RGB, is_uint8; cbn; lia.
  - reflexivity.
Defined.

(** ** The analyzer on any image *)

Lemma pixelAt_valid (img : Image) (x y : Z) : valid_RGB (pixelAt img x y).
Proof.
  unfold pixelAt. destruct (At img x y) as [[[r g] b] a].
  unfold valid_RGB, is_uint8, uint8. cbn [R G B].
  repeat split; apply Z.mod_pos_bound; lia.
Qed.

Lemma pixels_elem_of (img : Image) (p : RGB) :
  p ∈ pixels img -> exists x y, p = pixelAt img x y.
Proof.
  unfold pixels. cbn zeta.
  intros (y & Hp & _)%list_elem_of_bind.
  apply list_elem_of_bind in Hp as (x & Hp & _).
  apply list_elem_of_singleton in Hp. exists x, y. exact Hp.
Qed.

Lemma quantize16_bucket (p : RGB) : valid_RGB p -> bucket_RGB (quantize16 p).
Proof.
  intros (Hr & Hg & Hb). unfold bucket_RGB, quantize16. cbn [R G B].
  destruct (quantize_channel _ Hr) as (-> & Dr & _ & Br).
  destruct (quantize_channel _ Hg) as (-> & Dg & _ & Bg).
  destruct (quantize_channel _ Hb) as (-> & Db & _ & Bb).
  repeat split; assumption || lia.
Qed.

Lemma quantized_bucket (img : Image) (c : RGB) :
  c ∈ quantized img -> bucket_RGB c.
Proof.
  unfold quantized. intros (p & -> & Hp)%list_elem_of_fmap.
  apply pixels_elem_of in Hp as (x & y & ->).
  apply quantize16_bucket, pixelAt_valid.
Qed.

Lemma kept_subseteq (img : Image) (c : RGB) : c ∈ kept img -> c ∈ quantized img.
Proof. unfold kept. intros [_ H]%list_elem_of_filter. exact H. Qed.

(** The map [mostFrequentColor] searches is the histogram of the kept
    colours, or of all of them when none is kept. *)
Lemma mostFrequentColor_countMap_histogram (img : Image) :
  exists m l, mostFrequentColor_countMap img = Some m
    /\ histogram_of l m
    /\ ((kept img <> [] /\ l = kept img)
        \/ (kept img = [] /\ l = quantized img)).
Proof.
  unfold mostFrequentColor_countMap.
  destruct (countFiltered_histogram (pixels img) [] ∅ histogram_of_nil)
    as (m1 & Hm1 & Hh1).
  rewrite app_nil_l in Hh1. fold (quantized img) in Hh1. fold (kept img) in Hh1.
  rewrite Hm1. cbn [mbind option_bind].
  destruct (decide (size m1 = 0%nat)) as [Hsz|Hsz].
  - apply (histogram_of_empty _ _ Hh1) in Hsz as Hk.
    rewrite Hk in Hh1.
    destruct (countAll_histogram (pixels img) [] m1 Hh1) as (m2 & Hm2 & Hh2).
    rewrite app_nil_l in Hh2. fold (quantized img) in Hh2.
    exists m2, (quantized img). split; [exact Hm2|]. split; [exact Hh2|].
    right. split; [exact Hk | reflexivity].
  - exists m1, (kept img). split; [reflexivity|]. split; [exact Hh1|].
    left. split; [|reflexivity].
    intros E. apply Hsz. apply (histogram_of_empty _ _ Hh1). exact E.
Qed.

Lemma range_empty_histogram range (m : gmap RGB Z) :
  range_order range -> histogram_of [] m -> range m = [].
Proof.
  intros Hr Hh.
  assert (Hm : m = ∅)
    by (apply map_size_empty_iff, (histogram_of_empty _ _ Hh); reflexivity).
  subst m. apply Permutation_nil_r. rewrite (Hr ∅), map_to_list_empty.
  reflexivity.
Qed.

Lemma pixels_empty (img : Image) :
  Dx (Bounds img) <= 0 \/ Dy (Bounds img) <= 0 -> pixels img = [].
Proof.
  intros H. apply nil_length_inv. rewrite length_pixels. lia.
Qed.

Lemma rangeMax_bucket
  (range : gmap RGB Z -> list (RGB * Z)) (img : Image) (m : gmap RGB Z) :
  range_order range -> mostFrequentColor_countMap img = Some m ->
  bucket_RGB (rangeMax (range m)).
Proof.
  intros Hr Hm.
  destruct (mostFrequentColor_countMap_histogram img) as (m' & l & Hm' & Hh & Hl).
  rewrite Hm in Hm'. injection Hm' as <-.
  destruct (decide (l = [])) as [->|Hne].
  - rewrite (range_empty_histogram _ _ Hr Hh). unfold rangeMax. cbn.
    unfold bucket_RGB. cbn. repeat split; (exists 0; reflexivity) || lia.
  - destruct (rangeMax_histogram _ _ _ Hr Hh Hne) as [Hin _].
    destruct Hl as [[_ ->]|[_ ->]];
      [apply (quantized_bucket img), kept_subseteq, Hin
      | apply (quantized_bucket img), Hin].
Qed.

(** X4. Whatever the image, empty ones included, and whatever the
    order of the map, the colour [mostFrequentColor] returns is a
    bucket: each channel a multiple of 16 between 0 and 240. No channel
    of a dominant colour ever exceeds 240. *)
Theorem mostFrequentColor_bucket
  (range : gmap RGB Z -> list (RGB * Z)) (img : Image) :
  range_order range ->
  exists c, mostFrequentColor range img = Some c /\ bucket_RGB c.
Proof.
  intros Hr. unfold mostFrequentColor.
  destruct (mostFrequentColor_countMap_histogram img) as (m & l & Hm & _).
  rewrite Hm. cbn [mbind option_bind]. eexists. split; [reflexivity|].
  apply (rangeMax_bucket range img m Hr Hm).
Qed.

Lemma mostFrequentColor_bucket_witness :
  exists c, mostFrequentColor range_canonical redBlueFrame = Some c
            /\ bucket_RGB c.
Proof.
  exact (mostFrequentColor_bucket range_canonical redBlueFrame
           range_canonical_order).
Defined.

(** X5. An image without pixels (zero or negative width or height)
    makes [mostFrequentColor] return the zero colour (0,0,0), and
    [topColors] an empty list for every [n >= 0]. *)
Theorem analyzer_on_empty_image
  (range : gmap RGB Z -> list (RGB * Z))
  (sort_Slice : (RGB * Z -> RGB * Z -> bool) -> list (RGB * Z) -> list (RGB * Z))
  (img : Image) :
  range_order range -> sort_contract sort_Slice ->
  Dx (Bounds img) <= 0 \/ Dy (Bounds img) <= 0 ->
  mostFrequentColor range img = Some (mkRGB 0 0 0)
  /\ forall n, 0 <= n -> topColors range sort_Slice img n = Some [].
Proof.
  intros Hr Hsort Hempty. pose proof (pixels_empty img Hempty) as Hp.
  assert (Hrange : range ∅ = [])
    by (apply (range_empty_histogram _ _ Hr), histogram_of_nil).
  split.
  - unfold mostFrequentColor, mostFrequentColor_countMap. rewrite Hp.
    cbn [countFiltered mbind option_bind].
    rewrite decide_True by apply map_size_empty.
    cbn [countAll mbind option_bind]. rewrite Hrange. reflexivity.
  - intros n Hn. rewrite topColors_take by exact Hn. rewrite Hp.
    cbn [countAll mbind option_bind]. rewrite Hrange.
    destruct (Hsort []) as [Hperm _]. apply Permutation_nil_r in Hperm.
    rewrite Hperm. rewrite take_nil. reflexivity.
Qed.

Lemma analyzer_on_empty_image_witness :
  mostFrequentColor range_canonical (rgbaImage 0 5 (fun _ _ => mkRGB 9 9 9))
  = Some (mkRGB 0 0 0)
  /\ forall n, 0 <= n ->
       topColors range_canonical sort_merge
         (rgbaImage 0 5 (fun _ _ => mkRGB 9 9 9)) n = Some [].
Proof.
  apply (analyzer_on_empty_image range_canonical sort_merge).
  - exact range_canonical_order.
  - exact sort_merge_contract.
  - left. vm_compute. discriminate.
Defined.

(** ** Ranked colours: edge cases and totals *)

Lemma countAll_total (img : Image) :
  exists m, countAll (pixels img) ∅ = Some m /\ histogram_of (quantized img) m.
Proof.
  destruct (countAll_histogram (pixels img) [] ∅ histogram_of_nil)
    as (m & Hm & Hh).
  rewrite app_nil_l in Hh. exists m. split; [exact Hm | exact Hh].
Qed.

(** X7. [topColors] panics for every negative [topN], whatever the
    image, and returns the empty list for [topN = 0]. *)
Theorem topColors_edge_counts
  (range : gmap RGB Z -> list (RGB * Z))
  (sort_Slice : (RGB * Z -> RGB * Z -> bool) -> list (RGB * Z) -> list (RGB * Z))
  (img : Image) :
  (forall topN, topN < 0 -> topColors range sort_Slice img topN = None)
  /\ topColors range sort_Slice img 0 = Some [].
Proof.
  destruct (countAll_total img) as (m & Hm & _).
  split.
  - intros topN Hneg. unfold topColors. rewrite Hm. cbn [mbind option_bind].
    rewrite decide_True by lia. rewrite decide_True by exact Hneg. reflexivity.
  - rewrite topColors_take by lia. rewrite Hm. reflexivity.
Qed.

Lemma topColors_edge_counts_witness :
  topColors range_canonical sort_merge redBlueFrame (-1) = None.
Proof.
  apply (proj1 (topColors_edge_counts range_canonical sort_merge redBlueFrame)).
  lia.
Defined.

Lemma sum_indicator_elem_of (q : RGB) (ks : list RGB) :
  NoDup ks -> q ∈ ks ->
  foldr (fun c acc => (if decide (q = c) then 1 else 0) + acc) 0 ks = 1.
Proof.
  intros Hnd Hin. pose proof (sum_indicator_le q ks Hnd) as Hle.
  assert (Hge : 1 <= foldr (fun c acc => (if decide (q = c) then 1 else 0) + acc)
                          0 ks); [|lia].
  clear Hnd Hle. induction ks as [|c ks IH]; [inversion Hin|].
  cbn [foldr].
  assert (Hnn : forall l : list RGB,
            0 <= foldr (fun c acc => (if decide (q = c) then 1 else 0) + acc) 0 l).
  { induction l as [|c' l IHl]; cbn [foldr]; [lia|].
    destruct (decide (q = c')); lia. }
  apply elem_of_cons in Hin as [->|Hin].
  - rewrite decide_True by reflexivity. pose proof (Hnn ks). lia.
  - specialize (IH Hin). destruct (decide (q = c)); lia.
Qed.

Lemma sum_occurrences_cons (q : RGB) (ks l : list RGB) :
  foldr (fun c acc => occurrences c (q :: l) + acc) 0 ks
  = foldr (fun c acc => (if decide (q = c) then 1 else 0) + acc) 0 ks
    + foldr (fun c acc => occurrences c l + acc) 0 ks.
Proof.
  induction ks as [|c ks IHk]; cbn [foldr]; [reflexivity|].
  rewrite IHk. change (q :: l) with ([q] ++ l).
  rewrite occurrences_app, occurrences_singleton. lia.
Qed.

Lemma sum_occurrences_all (ks l : list RGB) :
  NoDup ks -> (forall c, c ∈ l -> c ∈ ks) ->
  foldr (fun c acc => occurrences c l + acc) 0 ks = Z.of_nat (length l).
Proof.
  intros Hnd. induction l as [|q l IH]; intros Hcover.
  - clear. induction ks as [|c ks IHk]; cbn [foldr]; [reflexivity|].
    rewrite IHk. reflexivity.
  - rewrite sum_occurrences_cons.
    rewrite (sum_indicator_elem_of q ks Hnd) by (apply Hcover; left).
    rewrite IH by (intros c Hc; apply Hcover; right; exact Hc).
    cbn [length]. lia.
Qed.

(** X8. When [topColors] returns fewer than [topN] entries, nothing was
    cut off: every colour of the image is listed and the counts add up
    to the number of pixels, [Dx * Dy] for well-formed bounds. *)
Theorem topColors_complete
  (range : gmap RGB Z -> list (RGB * Z))
  (sort_Slice : (RGB * Z -> RGB * Z -> bool) -> list (RGB * Z) -> list (RGB * Z))
  (img : Image) (topN : Z) (top : list (RGB * Z)) :
  range_order range -> sort_contract sort_Slice ->
  topColors range sort_Slice img topN = Some top ->
  Z.of_nat (length top) < topN ->
  (forall c, c ∈ quantized img -> (c, occurrences c (quantized img)) ∈ top)
  /\ total_count top = Z.of_nat (length (pixels img))
  /\ (0 <= Dx (Bounds img) -> 0 <= Dy (Bounds img) ->
      total_count top = Dx (Bounds img) * Dy (Bounds img)).
Proof.
  intros Hr Hsort Htop Hlen.
  rewrite topColors_take in Htop by lia.
  destruct (countAll_total img) as (m & Hm & Hh).
  rewrite Hm in Htop. cbn [mbind option_bind] in Htop.
  destruct (Hsort (range m)) as [Hperm _].
  set (sorted := sort_Slice kv_less (range m)) in *.
  assert (Hall : sorted ≡ₚ map_to_list m) by (rewrite Hperm; apply Hr).
  injection Htop as <-.
  assert (Hfull : take (Z.to_nat topN) sorted = sorted).
  { apply take_ge. rewrite length_take in Hlen. lia. }
  rewrite Hfull in *.
  assert (Hentry : forall c k, (c, k) ∈ sorted <->
            c ∈ quantized img /\ k = occurrences c (quantized img)).
  { intros c k. rewrite Hall, elem_of_map_to_list.
    apply histogram_of_entry, Hh. }
  assert (Hsum : total_count sorted = Z.of_nat (length (pixels img))).
  { rewrite (total_count_occurrences sorted (quantized img))
      by (intros c k Hin; apply (Hentry c k), Hin).
    rewrite sum_occurrences_all.
    - unfold quantized. rewrite length_fmap. reflexivity.
    - rewrite Hall. apply NoDup_fst_map_to_list.
    - intros c Hc. apply list_elem_of_fmap.
      exists (c, occurrences c (quantized img)). split; [reflexivity|].
      apply Hentry. split; [exact Hc | reflexivity]. }
  split; [intros c Hc; apply Hentry; split; [exact Hc | reflexivity]|].
  split; [exact Hsum|].
  intros Hx Hy. rewrite Hsum, length_pixels. lia.
Qed.

Lemma topColors_complete_witness :
  total_count [(mkRGB 0 0 192, 9); (mkRGB 192 0 0, 2)]
  = Z.of_nat (length (pixels redBlueFrame)).
Proof.
  assert (Htop : topColors range_canonical sort_merge redBlueFrame 10
                 = Some [(mkRGB 0 0 192, 9); (mkRGB 192 0 0, 2)])
    by (vm_compute; reflexivity).
  assert (Hlen : Z.of_nat (length [(mkRGB 0 0 192, 9); (mkRGB 192 0 0, 2)]) < 10)
    by (cbn; lia).
  exact (proj1 (proj2 (topColors_complete range_canonical sort_merge
                         redBlueFrame 10 _ range_canonical_order
                         sort_merge_contract Htop Hlen))).
Defined.

(** X9. The two queries agree where they should. On an image with at
    least one pixel and for [topN >= 1], the first entry of [topColors]
    counts at least as many pixels as the dominant colour has; when no
    pixel is near-black or near-white, or when all are, it counts
    exactly as many. *)
Theorem dominant_and_top_entry
  (range : gmap RGB Z -> list (RGB * Z))
  (sort_Slice : (RGB * Z -> RGB * Z -> bool) -> list (RGB * Z) -> list (RGB * Z))
  (img : Image) (topN : Z) :
  range_order range -> sort_contract sort_Slice ->
  0 < Dx (Bounds img) -> 0 < Dy (Bounds img) -> 1 <= topN ->
  exists c e rest,
    mostFrequentColor range img = Some c
    /\ topColors range sort_Slice img topN = Some (e :: rest)
    /\ occurrences c (quantized img) <= e.2
    /\ (kept img = [] \/ kept img = quantized img ->
        e.2 = occurrences c (quantized img)).
Proof.
  intros Hr Hsort Hx Hy Hn.
  pose proof (quantized_nonempty img Hx Hy) as Hq.
  (* the ranked list *)
  rewrite topColors_take by lia.
  destruct (countAll_total img) as (m & Hm & Hh).
  rewrite Hm. cbn [mbind option_bind].
  destruct (Hsort (range m)) as [Hperm Hsorted].
  set (sorted := sort_Slice kv_less (range m)) in *.
  assert (Hall : sorted ≡ₚ map_to_list m) by (rewrite Hperm; apply Hr).
  assert (Hentry : forall x, x ∈ sorted <->
            x.1 ∈ quantized img /\ x.2 = occurrences x.1 (quantized img)).
  { intros [c k]. rewrite Hall, elem_of_map_to_list.
    apply histogram_of_entry, Hh. }
  destruct sorted as [|e srest] eqn:Es.
  { destruct (quantized img) as [|c0 l0] eqn:Eq; [contradiction|].
    assert (Hc0 : (c0, occurrences c0 (c0 :: l0)) ∈ @nil (RGB * Z))
      by (apply Hentry; split; [left | reflexivity]).
    inversion Hc0. }
  assert (Hhead : forall x, x ∈ e :: srest -> x.2 <= e.2).
  { unfold sorted_by in Hsorted. apply StronglySorted_cons in Hsorted as [Hfa _].
    intros x [->|Hin]%elem_of_cons; [lia|].
    rewrite Forall_forall in Hfa. specialize (Hfa x Hin).
    unfold kv_less in Hfa. destruct (Z.gtb_spec x.2 e.2); [discriminate | lia]. }
  (* the dominant colour *)
  unfold mostFrequentColor.
  destruct (mostFrequentColor_countMap_histogram img) as (m' & l & Hm' & Hh' & Hl).
  rewrite Hm'. cbn [mbind option_bind].
  assert (Hne : l <> []) by (destruct Hl as [[Hk ->]|[_ ->]]; assumption).
  destruct (rangeMax_histogram _ _ _ Hr Hh' Hne) as [Hin Hmax].
  set (c := rangeMax (range m')) in *.
  assert (Hcq : c ∈ quantized img).
  { destruct Hl as [[_ ->]|[_ ->]]; [apply kept_subseteq, Hin | exact Hin]. }
  assert (Hle : occurrences c (quantized img) <= e.2).
  { apply (Hhead (c, occurrences c (quantized img))).
    apply Hentry. split; [exact Hcq | reflexivity]. }
  destruct (Z.to_nat topN) as [|k] eqn:Ek; [lia|].
  exists c, e, (take k srest).
  split; [reflexivity|]. split; [reflexivity|].
  split; [exact Hle|].
  intros Hcase.
  assert (El : l = quantized img).
  { destruct Hl as [[Hk ->]|[_ ->]]; [|reflexivity].
    destruct Hcase as [E|E]; [contradiction | exact E]. }
  rewrite El in Hmax.
  assert (He : e ∈ e :: srest) by left.
  apply Hentry in He as [_ He2]. specialize (Hmax e.1). lia.
Qed.

Lemma dominant_and_top_entry_witness :
  exists c e rest,
    mostFrequentColor range_canonical redBlueFrame = Some c
    /\ topColors range_canonical sort_merge redBlueFrame 10 = Some (e :: rest)
    /\ occurrences c (quantized redBlueFrame) <= e.2
    /\ (kept redBlueFrame = [] \/ kept redBlueFrame = quantized redBlueFrame ->
        e.2 = occurrences c (quantized redBlueFrame)).
Proof.
  apply (dominant_and_top_entry range_canonical sort_merge redBlueFrame 10).
  - exact range_canonical_order.
  - exact sort_merge_contract.
  - vm_compute. reflexivity.
  - vm_compute. reflexivity.
  - lia.
Defined.


(** ** Colour names *)

Lemma yellow_is_light_yellow (r g b : Z) :
  (r >? 200) && (g >? 200) && (b <? 100) = true ->
  (g >? 200) && (r >? 200) && (b <? 100) = true.
Proof. destruct (r >? 200), (g >? 200), (b <? 100); cbn; congruence. Qed.

Lemma magenta_is_pink (r g b : Z) :
  (r >? 200) && (g <? 100) && (b >? 200) = true ->
  (b >? 200) && (r >? 200) && (g <? 100) = true.
Proof. destruct (r >? 200), (g <? 100), (b >? 200); cbn; congruence. Qed.

Lemma cyan_is_teal (r g b : Z) :
  (r <? 100) && (g >? 200) && (b >? 200) = true ->
  (g >? 100) && (b >? 100) && (r <? 100) = true.
Proof.
  rewrite !andb_true_iff, !Z.gtb_lt, !Z.ltb_lt. lia.
Qed.

(** X10. [colorName] returns one of sixteen names. The cases "yellow",
    "magenta" and "cyan" of its switch are never taken: an earlier case
    ("light yellow", "pink", "teal") holds whenever theirs does. *)
Theorem colorName_returned (c : RGB) :
  colorName c ∈ returned_names
  /\ colorName c <> "yellow" /\ colorName c <> "magenta"
  /\ colorName c <> "cyan".
Proof.
  unfold colorName, returned_names. cbn zeta.
  repeat match goal with
         | |- context [if ?b then _ else _] =>
             lazymatch b with
             | context [if _ then _ else _] => fail
             | _ => destruct b eqn:?
             end
         end;
    try (exfalso;
         repeat match goal with
                | H : _ = true |- _ =>
                    first [ apply yellow_is_light_yellow in H
                          | apply magenta_is_pink in H
                          | apply cyan_is_teal in H ]; congruence
                end; fail);
    (split; [solve [repeat first [left | right]] | repeat split; discriminate]).
Qed.


(** ** Distances and the threshold in integers *)

Lemma all_from_spec (n : nat) : forall z0 f,
  all_from n z0 f = true ->
  forall z, z0 <= z < z0 + Z.of_nat n -> f z = true.
Proof.
  induction n as [|k IH]; intros z0 f H z Hz; [lia|].
  cbn [all_from] in H. apply andb_true_iff in H as [H1 H2].
  destruct (decide (z = z0)) as [->|Hne]; [exact H1|].
  apply (IH (z0 + 1)); [exact H2 | lia].
Qed.

Lemma distance_table :
  all_from (Z.to_nat 195076) 0 distance_check = true.
Proof. vm_compute. reflexivity. Qed.

Lemma distance_check_holds (d : Z) :
  0 <= d <= 195075 ->
  PrimFloat.leb colorChangeThreshold (float64_of_int d) = (32 <=? d)
  /\ PrimFloat.eqb (float64_of_int d) 0 = (d =? 0).
Proof.
  intros Hd.
  pose proof (all_from_spec _ _ _ distance_table d ltac:(lia)) as H.
  unfold distance_check in H. apply andb_true_iff in H as [H1 H2].
  apply Bool.eqb_prop in H1, H2. split; assumption.
Qed.

Lemma squaredDistance_range (a b : RGB) :
  valid_RGB a -> valid_RGB b -> 0 <= squaredDistance a b <= 195075.
Proof.
  unfold valid_RGB, is_uint8, squaredDistance. cbn zeta.
  intros (Ha1 & Ha2 & Ha3) (Hb1 & Hb2 & Hb3).
  assert (Hsq : forall x y, 0 <= x < 256 -> 0 <= y < 256 ->
                            0 <= (x - y) * (x - y) <= 65025).
  { intros x y Hx Hy. pose proof (Z.square_nonneg (x - y)).
    assert (0 <= (255 - (x - y)) * (255 + (x - y)))
      by (apply Z.mul_nonneg_nonneg; lia).
    lia. }
  pose proof (Hsq _ _ Ha1 Hb1). pose proof (Hsq _ _ Ha2 Hb2).
  pose proof (Hsq _ _ Ha3 Hb3). lia.
Qed.

Lemma squaredDistance_zero (a b : RGB) : squaredDistance a b = 0 <-> a = b.
Proof.
  split; [|intros ->; apply squaredDistance_refl].
  destruct a as [r1 g1 b1], b as [r2 g2 b2]. unfold squaredDistance.
  cbn [R G B]. cbn zeta. intros H.
  pose proof (Z.square_nonneg (r1 - r2)) as H1.
  pose proof (Z.square_nonneg (g1 - g2)) as H2.
  pose proof (Z.square_nonneg (b1 - b2)) as H3.
  assert (Hz : forall x y : Z, (x - y) * (x - y) = 0 -> x = y).
  { intros x y [E|E]%Z.mul_eq_0; lia. }
  rewrite (Hz r1 r2), (Hz g1 g2), (Hz b1 b2) by lia.
  reflexivity.
Qed.

(** X11. For 8-bit colours [colorDistance] is symmetric, lies between 0
    and 195075 = 3 * 255^2 as an integer, converts to [float64] without
    rounding error in the comparison with zero, and is zero exactly
    between equal colours. *)
Theorem colorDistance_properties (a b : RGB) :
  valid_RGB a -> valid_RGB b ->
  colorDistance a b = colorDistance b a
  /\ 0 <= squaredDistance a b <= 195075
  /\ (PrimFloat.eqb (colorDistance a b) 0 = true <-> a = b).
Proof.
  intros Ha Hb. pose proof (squaredDistance_range a b Ha Hb) as Hrange.
  split; [|split; [exact Hrange|]].
  - unfold colorDistance. f_equal. unfold squaredDistance. cbn zeta. lia.
  - unfold colorDistance.
    rewrite (proj2 (distance_check_holds _ Hrange)), Z.eqb_eq.
    apply squaredDistance_zero.
Qed.

Lemma colorDistance_properties_witness :
  colorDistance (mkRGB 0 0 0) (mkRGB 255 0 0)
  = colorDistance (mkRGB 255 0 0) (mkRGB 0 0 0)
  /\ 0 <= squaredDistance (mkRGB 0 0 0) (mkRGB 255 0 0) <= 195075
  /\ (PrimFloat.eqb (colorDistance (mkRGB 0 0 0) (mkRGB 255 0 0)) 0 = true
      <-> mkRGB 0 0 0 = mkRGB 255 0 0).
Proof.
  apply colorDistance_properties; unfold valid_RGB, is_uint8; cbn; lia.
Defined.

(** X12. In integers: with the threshold 32.0 of the loop, a cycle that
    has a previous colour wants to emit exactly when the squared
    distance between the two 8-bit colours is at least 32. *)
Theorem shouldCallHA_integer (mostColor prev : RGB) :
  valid_RGB mostColor -> valid_RGB prev ->
  (shouldCallHA colorChangeThreshold mostColor (Some prev) = true
   <-> 32 <= squaredDistance mostColor prev).
Proof.
  intros Hm Hp. cbn [shouldCallHA]. cbn zeta. unfold colorDistance.
  rewrite (proj1 (distance_check_holds _ (squaredDistance_range _ _ Hm Hp))).
  apply Z.leb_le.
Qed.

Lemma shouldCallHA_integer_witness :
  shouldCallHA colorChangeThreshold (mkRGB 4 4 0) (Some (mkRGB 0 0 0)) = true
  <-> 32 <= squaredDistance (mkRGB 4 4 0) (mkRGB 0 0 0).
Proof.
  apply shouldCallHA_integer; unfold valid_RGB, is_uint8; cbn; lia.
Defined.

Lemma bucket_valid (c : RGB) : bucket_RGB c -> valid_RGB c.
Proof.
  unfold bucket_RGB, valid_RGB, is_uint8. intros ((_ & ?) & (_ & ?) & (_ & ?)).
  lia.
Qed.

Lemma bucket_distance (a b : RGB) :
  bucket_RGB a -> bucket_RGB b -> a <> b -> 256 <= squaredDistance a b.
Proof.
  intros (([ra Hra] & _) & ([ga Hga] & _) & ([ba Hba] & _))
         (([rb Hrb] & _) & ([gb Hgb] & _) & ([bb Hbb] & _)) Hne.
  destruct a as [r1 g1 b1], b as [r2 g2 b2]. cbn [R G B] in *. subst.
  unfold squaredDistance. cbn [R G B]. cbn zeta.
  assert (Hd : ra <> rb \/ ga <> gb \/ ba <> bb).
  { destruct (decide (ra = rb)) as [->|]; [|left; assumption].
    destruct (decide (ga = gb)) as [->|]; [|right; left; assumption].
    destruct (decide (ba = bb)) as [->|]; [|right; right; assumption].
    contradiction. }
  assert (Hsq : forall x y : Z, 0 <= (x * 16 - y * 16) * (x * 16 - y * 16))
    by (intros; apply Z.square_nonneg).
  assert (Hsq' : forall x y : Z, x <> y ->
                   256 <= (x * 16 - y * 16) * (x * 16 - y * 16)).
  { intros x y Hxy.
    assert (0 < (x - y) * (x - y)).
    { destruct (Z.lt_ge_cases (x - y) 0);
        [apply Z.mul_neg_neg | apply Z.mul_pos_pos]; lia. }
    replace ((x * 16 - y * 16) * (x * 16 - y * 16))
      with (256 * ((x - y) * (x - y))) by ring.
    lia. }
  pose proof (Hsq ra rb). pose proof (Hsq ga gb). pose proof (Hsq ba bb).
  destruct Hd as [Hd|[Hd|Hd]]; apply Hsq' in Hd; lia.
Qed.

Lemma emissionStep_bucket (appConfig : Config) (c : RGB) (prevColor : option RGB) :
  HA_TOKEN appConfig <> "" ->
  bucket_RGB c -> (forall p, prevColor = Some p -> bucket_RGB p) ->
  emissionStep appConfig c prevColor
  = (if decide (prevColor = Some c) then skippedBelowThreshold
     else setLEDState (R c) (G c) (B c) 255 (HA_TOKEN appConfig),
     Some c).
Proof.
  intros Htoken Hc Hprev. destruct prevColor as [p|].
  - specialize (Hprev p eq_refl).
    destruct (decide (Some p = Some c)) as [[= ->]|Hne].
    + apply emissionStep_same, Htoken.
    + unfold emissionStep. rewrite decide_False by exact Htoken.
      assert (Hs : shouldCallHA colorChangeThreshold c (Some p) = true).
      { assert (Hcp : c <> p) by congruence.
        pose proof (bucket_distance c p Hc Hprev Hcp) as Hd.
        pose proof (squaredDistance_range c p (bucket_valid _ Hc)
                      (bucket_valid _ Hprev)) as Hrange.
        cbn [shouldCallHA]. cbn zeta. unfold colorDistance.
        rewrite (proj1 (distance_check_holds _ Hrange)).
        apply Z.leb_le. lia. }
      rewrite Hs. reflexivity.
  - rewrite decide_False by discriminate. apply emissionStep_first, Htoken.
Qed.

(** X13. On bucket colours, which are all [mostFrequentColor] returns,
    the threshold 32.0 never holds an update back: with a token set, the
    loop sends the colour of the first frame and then the colour of
    each frame that differs from the frame before, and nothing else. *)
Theorem colorUpdateLoop_emits_on_change (appConfig : Config)
  (mostColors : list RGB) :
  HA_TOKEN appConfig <> "" ->
  Forall bucket_RGB mostColors ->
  colorUpdateLoop appConfig mostColors
  = emissions_on_change (HA_TOKEN appConfig) None mostColors.
Proof.
  intros Htoken Hall. unfold colorUpdateLoop.
  assert (Hgen : forall prevColor,
            (forall p, prevColor = Some p -> bucket_RGB p) ->
            runCycles appConfig prevColor mostColors
            = emissions_on_change (HA_TOKEN appConfig) prevColor mostColors).
  { induction Hall as [|c rest Hc Hrest IH]; intros prevColor Hprev;
      [reflexivity|].
    cbn [runCycles emissions_on_change].
    rewrite (emissionStep_bucket _ _ _ Htoken Hc Hprev).
    rewrite IH by (intros p [= <-]; exact Hc). reflexivity. }
  apply Hgen. discriminate.
Qed.

Lemma colorUpdateLoop_emits_on_change_witness :
  colorUpdateLoop (exampleConfig 32)
    [mkRGB 16 0 0; mkRGB 16 0 0; mkRGB 16 16 0; mkRGB 16 0 0]
  = [setLEDState 16 0 0 255 "your-long-lived-access-token";
     skippedBelowThreshold;
     setLEDState 16 16 0 255 "your-long-lived-access-token";
     setLEDState 16 0 0 255 "your-long-lived-access-token"].
Proof.
  apply (colorUpdateLoop_emits_on_change (exampleConfig 32)).
  - discriminate.
  - repeat constructor; cbn; try lia;
      match goal with |- (16 | ?x) => exists (x / 16); reflexivity end.
Defined.

(** X14. Without a token the loop never calls the controller: every
    cycle takes the branch that only logs, whatever the frames. *)
Theorem colorUpdateLoop_without_token (appConfig : Config)
  (mostColors : list RGB) :
  HA_TOKEN appConfig = "" ->
  colorUpdateLoop appConfig mostColors
  = replicate (length mostColors) skippedNoToken.
Proof.
  intros Htoken. unfold colorUpdateLoop. generalize (@None RGB).
  induction mostColors as [|c rest IH]; intros prevColor; [reflexivity|].
  cbn [runCycles length replicate]. unfold emissionStep at 1.
  rewrite decide_True by exact Htoken. rewrite IH. reflexivity.
Qed.

Lemma colorUpdateLoop_without_token_witness :
  colorUpdateLoop (mkConfig "http://ha:8123" "" "light.strip" false false 32 100)
    [mkRGB 16 0 0; mkRGB 32 0 0]
  = [skippedNoToken; skippedNoToken].
Proof.
  apply (colorUpdateLoop_without_token
           (mkConfig "http://ha:8123" "" "light.strip" false false 32 100)).
  reflexivity.
Defined.

(** X15. The loop yields one outcome per frame, and every call it makes
    carries the dominant colour of that very frame, brightness 255 and
    the configured, non-empty token. *)
Theorem colorUpdateLoop_calls (appConfig : Config) (mostColors : list RGB) :
  length (colorUpdateLoop appConfig mostColors) = length mostColors
  /\ forall i r g b brightness token,
       colorUpdateLoop appConfig mostColors !! i
         = Some (setLEDState r g b brightness token) ->
       (exists c, mostColors !! i = Some c /\ r = R c /\ g = G c /\ b = B c)
       /\ brightness = 255
       /\ token = HA_TOKEN appConfig /\ token <> "".
Proof.
  unfold colorUpdateLoop. generalize (@None RGB).
  induction mostColors as [|c rest IH]; intros prevColor.
  - split; [reflexivity|]. intros i r g b br tok H. destruct i; discriminate.
  - cbn [runCycles].
    destruct (emissionStep appConfig c prevColor) as [em prev'] eqn:E.
    destruct (IH prev') as [IHlen IHcall].
    split; [cbn [length]; rewrite IHlen; reflexivity|].
    intros [|i] r g b br tok H.
    + cbn in H. injection H as ->. unfold emissionStep in E.
      destruct (decide (HA_TOKEN appConfig = "")) as [|Hne]; [discriminate|].
      destruct (shouldCallHA colorChangeThreshold c prevColor); [|discriminate].
      injection E as <- <- <- <- <- _.
      split; [exists c; repeat split; reflexivity|].
      split; [reflexivity|]. split; [reflexivity | exact Hne].
    + cbn in H. apply (IHcall i r g b br tok H).
Qed.

Lemma colorUpdateLoop_calls_witness :
  colorUpdateLoop (exampleConfig 32) [mkRGB 16 0 0; mkRGB 32 0 0] !! 1%nat
  = Some (setLEDState 32 0 0 255 "your-long-lived-access-token")
  /\ [mkRGB 16 0 0; mkRGB 32 0 0] !! 1%nat = Some (mkRGB 32 0 0).
Proof.
  assert (H : colorUpdateLoop (exampleConfig 32) [mkRGB 16 0 0; mkRGB 32 0 0]
              !! 1%nat
              = Some (setLEDState 32 0 0 255 "your-long-lived-access-token"))
    by (vm_compute; reflexivity).
  split; [exact H|].
  destruct (proj2 (colorUpdateLoop_calls (exampleConfig 32)
                     [mkRGB 16 0 0; mkRGB 32 0 0]) _ _ _ _ _ _ H)
    as ((c & Hc & Hr & Hg & Hb) & _).
  rewrite Hc. destruct c as [r g b]. cbn in Hr, Hg, Hb. subst. reflexivity.
Defined.

(** ** From frames to calls *)

(** X16. Analyzer and loop together: when the colours fed to the loop
    are the results of [mostFrequentColor] on a sequence of frames,
    each call visiting its map in an order of its own, and a token is
    set, the loop sends the first frame's colour and then exactly the
    colours that differ from the frame before; every channel sent is a
    multiple of 16 between 0 and 240. *)
Theorem frames_to_calls
  (appConfig : Config) (frames : list Image) (mostColors : list RGB) :
  HA_TOKEN appConfig <> "" ->
  Forall2 (fun img c =>
             exists range : gmap RGB Z -> list (RGB * Z),
               range_order range /\ mostFrequentColor range img = Some c)
          frames mostColors ->
  colorUpdateLoop appConfig mostColors
  = emissions_on_change (HA_TOKEN appConfig) None mostColors
  /\ forall i r g b brightness token,
       colorUpdateLoop appConfig mostColors !! i
         = Some (setLEDState r g b brightness token) ->
       bucket_RGB (mkRGB r g b).
Proof.
  intros Htoken Hframes.
  assert (Hall : Forall bucket_RGB mostColors).
  { induction Hframes as [|img c imgs cs (range & Hr & Hc) _ IH];
      constructor; [|exact IH].
    unfold mostFrequentColor in Hc.
    destruct (mostFrequentColor_countMap img) as [m|] eqn:Em; [|discriminate].
    cbn in Hc. injection Hc as <-. apply (rangeMax_bucket range img m Hr Em). }
  assert (Hgen : forall prevColor,
            (forall p, prevColor = Some p -> bucket_RGB p) ->
            runCycles appConfig prevColor mostColors
            = emissions_on_change (HA_TOKEN appConfig) prevColor mostColors).
  { clear Hframes. induction Hall as [|c rest Hc Hrest IH]; intros prevColor Hprev;
      [reflexivity|].
    cbn [runCycles emissions_on_change].
    rewrite (emissionStep_bucket _ _ _ Htoken Hc Hprev).
    rewrite IH by (intros p [= <-]; exact Hc). reflexivity. }
  assert (Hloop : colorUpdateLoop appConfig mostColors
                  = emissions_on_change (HA_TOKEN appConfig) None mostColors)
    by (apply Hgen; discriminate).
  split; [exact Hloop|].
  rewrite Hloop. clear Hloop Hgen Hframes. generalize (@None RGB).
  induction Hall as [|c rest Hc Hrest IH]; intros prevColor i r g b br tok H.
  - destruct i; discriminate.
  - destruct i as [|i]; cbn in H.
    + destruct (decide (prevColor = Some c)); [discriminate|].
      injection H as <- <- <- _ _. destruct c. exact Hc.
    + apply (IH (Some c) i r g b br tok H).
Qed.

Lemma frames_to_calls_witness :
  colorUpdateLoop (exampleConfig 32) [mkRGB 0 0 192; mkRGB 240 240 240]
  = emissions_on_change (HA_TOKEN (exampleConfig 32)) None
      [mkRGB 0 0 192; mkRGB 240 240 240].
Proof.
  apply (frames_to_calls (exampleConfig 32) [redBlueFrame; blackWhiteFrame]).
  - discriminate.
  - repeat constructor; exists range_canonical;
      (split; [exact range_canonical_order | vm_compute; reflexivity]).
Defined.


(** ** Downscaler on the bounds of a screen *)

(** X17. For an input whose bounds have every coordinate within 32768
    of the origin, empty or inverted bounds included, the downscaled
    image has its origin at (0, 0), at least one pixel and at most 6553
    pixels in each direction; the analyzer visits exactly [Dx * Dy]
    pixels of it, and for inputs of at least 10x10 that is at most a
    hundredth of the input's pixels. *)
Theorem downscale_any_bounds
  (scale : Rectangle -> Image -> Z -> Z -> Z * Z * Z * Z) (img : Image) :
  screen_sized (Bounds img) ->
  let out := downscale scale img in
  (Min_X (Bounds out) = 0 /\ Min_Y (Bounds out) = 0)
  /\ (1 <= Dx (Bounds out) /\ 1 <= Dy (Bounds out))
  /\ (Dx (Bounds img) < 20 -> Dx (Bounds out) = 1)
  /\ (Dy (Bounds img) < 20 -> Dy (Bounds out) = 1)
  /\ Z.of_nat (length (pixels out)) = Dx (Bounds out) * Dy (Bounds out)
  /\ (10 <= Dx (Bounds img) -> 10 <= Dy (Bounds img) ->
      100 * Z.of_nat (length (pixels out))
      <= Dx (Bounds img) * Dy (Bounds img))
  /\ (Dx (Bounds out) <= 6553 /\ Dy (Bounds out) <= 6553).
Proof.
  intros (HminX & HmaxX & HminY & HmaxY). cbn zeta.
  assert (Hquot : forall d, d <= 65536 -> d ÷ 10 <= 6553).
  { intros d Hd. destruct (Z.lt_ge_cases d 0) as [Hneg|Hpos].
    - pose proof (Z.quot_opp_l (- d) 10 ltac:(lia)) as Hq.
      rewrite Z.opp_involutive in Hq.
      pose proof (Z.quot_pos (- d) 10 ltac:(lia) ltac:(lia)). lia.
    - rewrite Z.quot_div_nonneg by lia.
      pose proof (Z.div_lt_upper_bound d 10 6554 ltac:(lia) ltac:(lia)). lia. }
  pose proof (Hquot (Dx (Bounds img)) ltac:(unfold Dx; lia)) as HwB.
  pose proof (Hquot (Dy (Bounds img)) ltac:(unfold Dy; lia)) as HhB.
  clear Hquot.
  set (w := Dx (Bounds img) ÷ 10) in *. set (h := Dy (Bounds img) ÷ 10) in *.
  set (w' := if w <? 1 then 1 else w). set (h' := if h <? 1 then 1 else h).
  assert (Hw' : 1 <= w') by (subst w'; destruct (Z.ltb_spec w 1); lia).
  assert (Hh' : 1 <= h') by (subst h'; destruct (Z.ltb_spec h 1); lia).
  assert (Hb : Bounds (downscale scale img) = mkRectangle 0 0 w' h').
  { unfold downscale. cbn zeta. cbn [Bounds]. fold w h. fold w' h'.
    unfold image_Rect.
    destruct (Z.gtb_spec 0 w'), (Z.gtb_spec 0 h'); try lia. reflexivity. }
  rewrite length_pixels. rewrite Hb.
  change (Dx (mkRectangle 0 0 w' h')) with (w' - 0).
  change (Dy (mkRectangle 0 0 w' h')) with (h' - 0).
  cbn [Min_X Min_Y]. rewrite !Z.sub_0_r.
  assert (Hwsmall : Dx (Bounds img) < 20 -> w' = 1).
  { intros Hlt. subst w' w. destruct (Z.ltb_spec (Dx (Bounds img) ÷ 10) 1); [reflexivity|].
    destruct (Z.lt_ge_cases (Dx (Bounds img)) 0) as [Hneg|Hpos].
    - pose proof (Z.quot_opp_l (- Dx (Bounds img)) 10 ltac:(lia)) as Hq.
      rewrite Z.opp_involutive in Hq.
      pose proof (Z.quot_pos (- Dx (Bounds img)) 10 ltac:(lia) ltac:(lia)). lia.
    - rewrite Z.quot_div_nonneg in * by lia.
      pose proof (Z.div_lt_upper_bound (Dx (Bounds img)) 10 2 ltac:(lia) ltac:(lia)).
      lia. }
  assert (Hhsmall : Dy (Bounds img) < 20 -> h' = 1).
  { intros Hlt. subst h' h. destruct (Z.ltb_spec (Dy (Bounds img) ÷ 10) 1); [reflexivity|].
    destruct (Z.lt_ge_cases (Dy (Bounds img)) 0) as [Hneg|Hpos].
    - pose proof (Z.quot_opp_l (- Dy (Bounds img)) 10 ltac:(lia)) as Hq.
      rewrite Z.opp_involutive in Hq.
      pose proof (Z.quot_pos (- Dy (Bounds img)) 10 ltac:(lia) ltac:(lia)). lia.
    - rewrite Z.quot_div_nonneg in * by lia.
      pose proof (Z.div_lt_upper_bound (Dy (Bounds img)) 10 2 ltac:(lia) ltac:(lia)).
      lia. }
  split; [split; reflexivity|]. split; [split; assumption|].
  split; [exact Hwsmall|]. split; [exact Hhsmall|].
  split; [lia|].
  split;
    [|split; [subst w'; destruct (Z.ltb_spec w 1); lia
             |subst h'; destruct (Z.ltb_spec h 1); lia]].
  intros Hx Hy.
  assert (Ew : w' = Dx (Bounds img) / 10).
  { subst w' w. rewrite Z.quot_div_nonneg by lia.
    pose proof (Z.div_le_lower_bound (Dx (Bounds img)) 10 1 ltac:(lia) ltac:(lia)).
    destruct (Z.ltb_spec (Dx (Bounds img) / 10) 1); lia. }
  assert (Eh : h' = Dy (Bounds img) / 10).
  { subst h' h. rewrite Z.quot_div_nonneg by lia.
    pose proof (Z.div_le_lower_bound (Dy (Bounds img)) 10 1 ltac:(lia) ltac:(lia)).
    destruct (Z.ltb_spec (Dy (Bounds img) / 10) 1); lia. }
  pose proof (Z.mul_div_le (Dx (Bounds img)) 10 ltac:(lia)) as Hmx.
  pose proof (Z.mul_div_le (Dy (Bounds img)) 10 ltac:(lia)) as Hmy.
  rewrite <- Ew in Hmx. rewrite <- Eh in Hmy.
  replace (100 * Z.of_nat (Z.to_nat h' * Z.to_nat w'))
    with ((10 * w') * (10 * h')) by lia.
  apply Z.mul_le_mono_nonneg; lia.
Qed.

Lemma downscale_any_bounds_witness :
  let scale := fun (_ : Rectangle) src x y => At src (10 * x) (10 * y) in
  let img := mkImage (mkRectangle 5 5 5 3) (fun _ _ => (0, 0, 0, 65535)) in
  Dx (Bounds img) < 20
  /\ Dx (Bounds (downscale scale img)) = 1
  /\ Z.of_nat (length (pixels (downscale scale img))) = 1.
Proof.
  intros scale img.
  assert (Hscreen : screen_sized (Bounds img))
    by (unfold screen_sized, img; cbn; lia).
  assert (Hlt : Dx (Bounds img) < 20) by (vm_compute; reflexivity).
  destruct (downscale_any_bounds scale img Hscreen) as (_ & _ & Hx & _ & Hn & _).
  split; [exact Hlt|]. split; [exact (Hx Hlt)|].
  rewrite Hn. reflexivity.
Defined.

(** ** Reading a pixel *)

(** X18. The colour read at a point always has 8-bit channels, each the
    high byte of the low 16 bits [RGBA()] gave; a channel that [RGBA()]
    widened from [c] to [c * 0x101] is read back as [c]. *)
Theorem pixelAt_channels (img : Image) (x y r g b a : Z) :
  At img x y = (r, g, b, a) ->
  valid_RGB (pixelAt img x y)
  /\ pixelAt img x y
     = mkRGB ((r / 256) mod 256) ((g / 256) mod 256) ((b / 256) mod 256)
  /\ (forall c, is_uint8 c -> r = c * 257 -> R (pixelAt img x y) = c)
  /\ (forall c, is_uint8 c -> g = c * 257 -> G (pixelAt img x y) = c)
  /\ (forall c, is_uint8 c -> b = c * 257 -> B (pixelAt img x y) = c).
Proof.
  intros Hat. split; [apply pixelAt_valid|].
  unfold pixelAt. rewrite Hat. unfold uint8. cbn [R G B].
  rewrite !Z.shiftr_div_pow2 by lia. change (2 ^ 8) with 256.
  split; [reflexivity|].
  assert (Hc : forall c, is_uint8 c -> (c * 257 / 256) mod 256 = c).
  { intros c [Hlo Hhi].
    replace (c * 257) with (c + c * 256) by lia.
    rewrite Z.div_add by lia. rewrite (Z.div_small c 256) by lia.
    apply Z.mod_small. lia. }
  repeat split; intros c Hv ->; apply Hc, Hv.
Qed.

Lemma pixelAt_channels_witness :
  pixelAt redBlueFrame 0 0 = mkRGB 200 0 0.
Proof.
  destruct (pixelAt_channels redBlueFrame 0 0 (200 * 257) 0 0 65535 eq_refl)
    as (_ & -> & _).
  reflexivity.
Defined.

(** ** Masking the token *)

Lemma append_length (s t : string) :
  String.length (s +:+ t) = (String.length s + String.length t)%nat.
Proof.
  induction s as [|c s IH]; [reflexivity|].
  change (String c s +:+ t) with (String c (s +:+ t)).
  cbn [String.length]. rewrite IH. reflexivity.
Qed.

Lemma substring_length_le (n m : nat) (s : string) :
  (n + m <= String.length s)%nat -> String.length (substring n m s) = m.
Proof.
  revert n m. induction s as [|c s IH]; intros n m H; cbn [String.length] in H.
  - assert (n = 0%nat /\ m = 0%nat) as [-> ->] by lia. reflexivity.
  - destruct n as [|n]; cbn [substring].
    + destruct m as [|m]; [reflexivity|].
      cbn [String.length]. rewrite IH by lia. reflexivity.
    + apply IH. lia.
Qed.

Lemma substring_prefix (a t : string) :
  substring 0 (String.length a) (a +:+ t) = a.
Proof.
  induction a as [|c a IH]; [destruct t; reflexivity|].
  change (String c a +:+ t) with (String c (a +:+ t)).
  cbn [String.length substring]. rewrite IH. reflexivity.
Qed.

Lemma substring_skip (s t : string) (m : nat) :
  substring (String.length s) m (s +:+ t) = substring 0 m t.
Proof.
  induction s as [|c s IH]; [reflexivity|].
  change (String c s +:+ t) with (String c (s +:+ t)).
  cbn [String.length substring]. exact IH.
Qed.

Lemma substring_whole (b : string) : substring 0 (String.length b) b = b.
Proof.
  induction b as [|c b IH]; [reflexivity|].
  cbn [String.length substring]. rewrite IH. reflexivity.
Qed.

(** X19. [maskToken] shows nothing of a token of at most 8 bytes. Of a
    longer one it shows the first 4 and the last 4 bytes around three
    dots, and nothing of what lies between; the result is 8 or 11 bytes
    long whatever the length of the token. *)
Theorem maskToken_hides (token : string) :
  ((String.length token <= 8)%nat -> maskToken token = "********")
  /\ (String.length (maskToken token) = 8%nat
      \/ String.length (maskToken token) = 11%nat)
  /\ (forall first middle last,
        String.length first = 4%nat -> String.length last = 4%nat ->
        middle <> EmptyString ->
        token = first +:+ middle +:+ last ->
        maskToken token = first +:+ "..." +:+ last).
Proof.
  unfold maskToken. split; [|split].
  - intros H. rewrite decide_True by exact H. reflexivity.
  - destruct (decide (String.length token <= 8)%nat) as [H|H];
      [left; reflexivity | right].
    rewrite !append_length, !substring_length_le by lia. reflexivity.
  - intros first middle last Hf Hl Hm ->.
    assert (Hmid : (0 < String.length middle)%nat)
      by (destruct middle; [contradiction | cbn; lia]).
    rewrite decide_False by (rewrite !append_length; lia).
    f_equal; [|f_equal].
    + rewrite <- Hf. apply substring_prefix.
    + replace (String.length (first +:+ middle +:+ last) - 4)%nat
        with (String.length (first +:+ middle))
        by (rewrite !append_length; lia).
      replace (first +:+ middle +:+ last) with ((first +:+ middle) +:+ last).
      * rewrite substring_skip, <- Hl. apply substring_whole.
      * clear. induction first as [|c f IH]; [reflexivity|].
        change (String c f +:+ middle) with (String c (f +:+ middle)).
        change (String c (f +:+ middle) +:+ last)
          with (String c ((f +:+ middle) +:+ last)).
        rewrite IH. reflexivity.
Qed.

Lemma maskToken_hides_witness :
  maskToken "eyJ0-secret-part-9xZq" = "eyJ0...9xZq"
  /\ maskToken "short" = "********".
Proof.
  destruct (maskToken_hides "eyJ0-secret-part-9xZq") as (_ & _ & Hlong).
  destruct (maskToken_hides "short") as (Hshort & _).
  split.
  - apply (Hlong "eyJ0" "-secret-part-" "9xZq"); reflexivity || discriminate.
  - apply Hshort. cbn. lia.
Defined.

(** ** More on the tray state machine *)

Lemma tray_next_synchronized (s s' : Tray.State) (e : Tray.Event) :
  Tray.synchronized s -> Tray.next s e = Some s' -> Tray.synchronized s'.
Proof.
  destruct s as [r h l]. destruct h, r; unfold Tray.synchronized; cbn;
    intros Hc Hn; destruct e; cbn in Hn;
    try match type of Hn with
        | context [l !! ?i] => destruct (l !! i) as [[]|] eqn:E
        end;
    cbn in Hn; try discriminate; injection Hn as <-; cbn;
    repeat match goal with H : _ /\ _ |- _ => destruct H end;
    try subst l;
    try (rewrite lookup_no_loop in E; discriminate);
    rewrite ?length_insert;
    try (erewrite delete_only_loop by (eassumption || lia));
    repeat split; try reflexivity; try assumption; try discriminate;
    cbn; lia.
Qed.

Lemma tray_run_synchronized (events : list Tray.Event) : forall s s',
  Tray.synchronized s -> Tray.run s events = Some s' -> Tray.synchronized s'.
Proof.
  induction events as [|e rest IH]; intros s s' Hc Hrun; cbn in Hrun.
  - injection Hrun as <-. exact Hc.
  - destruct (Tray.next s e) as [s1|] eqn:E; [|discriminate].
    cbn in Hrun. eapply IH; [|exact Hrun].
    eapply tray_next_synchronized; eassumption.
Qed.

Lemma tray_reachable_synchronized (s : Tray.State) :
  Tray.reachable s -> Tray.synchronized s.
Proof.
  intros [events Hrun]. eapply tray_run_synchronized; [|exact Hrun].
  reflexivity.
Qed.

(** X20. Whenever the handler is back at its [select], the flag
    [running] tells the truth: it is set exactly when one sampling loop
    is alive and clear exactly when none is. After a Quit click, or a
    fatal error in a cycle, no loop is left. *)
Theorem tray_flag_tracks_loop (s : Tray.State) :
  Tray.reachable s ->
  (Tray.handler s = Tray.AtSelect ->
     (Tray.running s = true <-> length (Tray.loops s) = 1%nat)
     /\ (Tray.running s = false <-> Tray.loops s = []))
  /\ (Tray.handler s = Tray.Exited -> Tray.loops s = []).
Proof.
  intros Hs%tray_reachable_synchronized. unfold Tray.synchronized in Hs.
  split.
  - intros Hh. rewrite Hh in Hs. destruct (Tray.running s).
    + split; split.
      * intros _. exact Hs.
      * reflexivity.
      * discriminate.
      * intros E. rewrite E in Hs. discriminate.
    + split; split.
      * discriminate.
      * intros E. rewrite Hs in E. discriminate.
      * intros _. exact Hs.
      * reflexivity.
  - intros Hh. rewrite Hh in Hs. exact Hs.
Qed.

Lemma tray_flag_tracks_loop_witness :
  let events := [Tray.ClickStart; Tray.SpawnLoop; Tray.TestGuard 0;
                 Tray.FinishBody 0; Tray.ClickStop; Tray.ReceiveQuit 0] in
  let s := Tray.mkState false Tray.AtSelect [] in
  Tray.run Tray.initial events = Some s
  /\ (Tray.running s = false <-> Tray.loops s = []).
Proof.
  intros events s.
  assert (Hrun : Tray.run Tray.initial events = Some s) by reflexivity.
  split; [exact Hrun|].
  apply (proj1 (tray_flag_tracks_loop s (ex_intro _ events Hrun)) eq_refl).
Defined.

(** X21. Stop can hang the tray. If the loop finds [running] cleared at
    its own test before it reaches its [select], it returns without
    receiving, and the handler stays blocked in its send on [quitChan]:
    such a state is reachable, and in it no event can happen any more,
    not even Quit. *)
Theorem tray_stop_can_block :
  let stuck := Tray.mkState false Tray.SendingQuit [] in
  Tray.reachable stuck
  /\ (forall s, Tray.handler s = Tray.SendingQuit -> Tray.loops s = [] ->
        forall e, Tray.next s e = None).
Proof.
  split.
  - exists [Tray.ClickStart; Tray.SpawnLoop; Tray.ClickStop; Tray.TestGuard 0].
    reflexivity.
  - intros s Hh Hl e. unfold Tray.next. rewrite Hh, Hl.
    destruct e; try reflexivity; rewrite lookup_no_loop; reflexivity.
Qed.

Lemma tray_stop_can_block_witness :
  Tray.run Tray.initial
    [Tray.ClickStart; Tray.SpawnLoop; Tray.ClickStop; Tray.TestGuard 0]
  = Some (Tray.mkState false Tray.SendingQuit [])
  /\ Tray.next (Tray.mkState false Tray.SendingQuit []) Tray.ClickQuit = None.
Proof.
  split; [reflexivity|].
  exact (proj2 tray_stop_can_block (Tray.mkState false Tray.SendingQuit [])
           eq_refl eq_refl Tray.ClickQuit).
Defined.


(** ** The statistics log when a write fails *)

Lemma percent_of_zero_total (count : Z) :
  finite_float (float64_of_int count / float64_of_int 0 * 100) = false.
Proof.
  unfold finite_float. rewrite FloatAxioms.mul_spec, FloatAxioms.div_spec.
  assert (E0 : Prim2SF (float64_of_int 0) = S754_zero false)
    by (vm_compute; reflexivity).
  assert (E100 : Prim2SF 100 = S754_finite false 7036874417766400 (-46))
    by (vm_compute; reflexivity).
  rewrite E0, E100.
  destruct (Prim2SF (float64_of_int count)) as [sx|sx| |sx mx ex];
    reflexivity.
Qed.

Lemma encodable_app (l1 l2 : list LogEntry) :
  encodable (l1 ++ l2) = encodable l1 && encodable l2.
Proof. unfold encodable. apply forallb_app. Qed.

(** X22. Two ways [logTopColorsJSON] fails. When the file cannot be
    opened for writing, it is left as it was. When [totalPixels] is 0
    and there is at least one colour, the percentages are NaN or
    infinite, the encoder refuses them, and the file, already
    truncated, is left empty: the entries it held are lost. Both
    return an error. *)
Theorem logTopColorsJSON_failures
  (json_Unmarshal_entries : string -> option (list LogEntry))
  (json_Unmarshal_entry : string -> option LogEntry)
  (json_Encode_indent : list LogEntry -> option string)
  (bytes_TrimSpace : string -> string)
  (now : string) (file : option string) (bounds : Rectangle)
  (top : list (RGB * Z)) (totalPixels : Z) (sync_ok : bool) :
  (forall entries, encodable entries = false ->
                   json_Encode_indent entries = None) ->
  logTopColorsJSON json_Unmarshal_entries json_Unmarshal_entry
    json_Encode_indent bytes_TrimSpace now false sync_ok file bounds top
    totalPixels = (file, returned_error)
  /\ (top <> [] ->
      logTopColorsJSON json_Unmarshal_entries json_Unmarshal_entry
        json_Encode_indent bytes_TrimSpace now true sync_ok file bounds top 0
      = (Some EmptyString, returned_error)).
Proof.
  intros Hstrict. split; [reflexivity|].
  intros Hne. unfold logTopColorsJSON. cbn zeta.
  rewrite Hstrict; [reflexivity|].
  rewrite encodable_app. apply andb_false_iff. right.
  destruct top as [|[c count] rest]; [contradiction|].
  unfold encodable. cbn [forallb TopColors colorStats map].
  cbn [Percent snd]. rewrite percent_of_zero_total. reflexivity.
Qed.

Lemma demo_Encode_strict_refuses (entries : list LogEntry) :
  encodable entries = false -> demo_Encode_strict entries = None.
Proof. intros H. unfold demo_Encode_strict. rewrite H. reflexivity. Qed.

Lemma logTopColorsJSON_failures_witness :
  logTopColorsJSON demo_Unmarshal_entries demo_Unmarshal_entry
    demo_Encode_strict demo_TrimSpace "now" true true (Some "{a}")
    (mkRectangle 0 0 0 0) [(mkRGB 0 0 0, 0)] 0
  = (Some EmptyString, returned_error).
Proof.
  apply (proj2 (logTopColorsJSON_failures demo_Unmarshal_entries
                  demo_Unmarshal_entry demo_Encode_strict demo_TrimSpace
                  "now" (Some "{a}") (mkRectangle 0 0 0 0)
                  [(mkRGB 0 0 0, 0)] 0 true demo_Encode_strict_refuses)).
  discriminate.
Defined.

(** * The analyzer and the change detector against the frame *)

(** ** Points and buckets *)

Lemma points_elem_of (r : Rectangle) (x y : Z) :
  (x, y) ∈ points r <-> in_bounds r x y.
Proof.
  unfold points, in_bounds, Dx, Dy. rewrite list_elem_of_bind. split.
  - intros (y' & Hx & Hy). apply list_elem_of_bind in Hx as (x' & Hpt & Hx).
    apply list_elem_of_singleton in Hpt as [= -> ->].
    apply elem_of_seqZ in Hx, Hy. lia.
  - intros [Hx Hy]. exists y. split; [|apply elem_of_seqZ; lia].
    apply list_elem_of_bind. exists x.
    split; [apply list_elem_of_singleton; reflexivity | apply elem_of_seqZ; lia].
Qed.

Lemma points_NoDup (r : Rectangle) : NoDup (points r).
Proof.
  unfold points. apply NoDup_bind; [| |apply NoDup_seqZ].
  - intros y1 y2 pt _ _ H1 H2.
    apply list_elem_of_bind in H1 as (x1 & H1 & _).
    apply list_elem_of_bind in H2 as (x2 & H2 & _).
    apply list_elem_of_singleton in H1, H2. congruence.
  - intros y _. apply NoDup_bind; [| |apply NoDup_seqZ].
    + intros x1 x2 pt _ _ H1 H2.
      apply list_elem_of_singleton in H1, H2. congruence.
    + intros x _. apply NoDup_singleton.
Qed.

Lemma bind_rows {A} (F : Z -> Z -> A) (ys xs : list Z) :
  (y ← ys; x ← xs; [F x y])
  = (fun pt => F pt.1 pt.2) <$> (y ← ys; x ← xs; [(x, y)]).
Proof.
  induction ys as [|y ys IH]; [reflexivity|].
  rewrite !bind_cons, fmap_app, IH. f_equal.
  clear IH. induction xs as [|x xs IHx]; [reflexivity|].
  rewrite !bind_cons, fmap_app, IHx. reflexivity.
Qed.

(** The loops of the analyzer read every point of the bounds. *)
Lemma pixels_points (img : Image) :
  pixels img = (fun pt => pixelAt img pt.1 pt.2) <$> points (Bounds img).
Proof.
  unfold pixels, points, Dx, Dy. cbn zeta. apply (bind_rows (pixelAt img)).
Qed.

Lemma channel_bucket_read (v : Z) :
  uint8 (uint8 (v ≫ 8) / 16 * 16) = channel_bucket v.
Proof.
  unfold uint8, channel_bucket. rewrite Z.shiftr_div_pow2 by lia.
  change (2 ^ 8) with 256. Z.div_mod_to_equations. lia.
Qed.

Lemma channel_bucket_widened (c : Z) :
  is_uint8 c -> channel_bucket (c * 257) = c / 16 * 16.
Proof.
  unfold is_uint8, channel_bucket. intros Hc.
  Z.div_mod_to_equations. lia.
Qed.

Lemma quantize16_pixelAt (img : Image) (x y : Z) :
  quantize16 (pixelAt img x y) = point_bucket img x y.
Proof.
  unfold quantize16, pixelAt, point_bucket.
  destruct (At img x y) as [[[r g] b] a]. cbn [R G B].
  rewrite !channel_bucket_read. reflexivity.
Qed.

Lemma quantized_points (img : Image) :
  quantized img
  = (fun pt => point_bucket img pt.1 pt.2) <$> points (Bounds img).
Proof.
  unfold quantized. rewrite pixels_points, <- list_fmap_compose.
  apply list_fmap_ext. intros _ pt _. apply quantize16_pixelAt.
Qed.

Lemma occurrences_fmap {A} (f : A -> RGB) (c : RGB) (l : list A) :
  occurrences c (f <$> l) = Z.of_nat (length (filter (fun a => f a = c) l)).
Proof.
  unfold occurrences. induction l as [|a l IH]; [reflexivity|].
  rewrite fmap_cons, !filter_cons.
  destruct (decide (f a = c)); cbn [length]; lia.
Qed.

Lemma bucket_count_occurrences (img : Image) (c : RGB) :
  bucket_count img c = occurrences c (quantized img).
Proof.
  unfold bucket_count. rewrite quantized_points, occurrences_fmap. reflexivity.
Qed.

Lemma quantized_elem_of (img : Image) (c : RGB) :
  c ∈ quantized img
  <-> exists x y, in_bounds (Bounds img) x y /\ point_bucket img x y = c.
Proof.
  rewrite quantized_points, list_elem_of_fmap. split.
  - intros ([x y] & -> & Hpt). exists x, y.
    split; [apply points_elem_of, Hpt | reflexivity].
  - intros (x & y & Hin & <-). exists (x, y).
    split; [reflexivity | apply points_elem_of, Hin].
Qed.

Lemma isBlackOrWhite_near (c : RGB) :
  isBlackOrWhite c = false <-> ~ near_black_or_white c.
Proof.
  unfold near_black_or_white. rewrite <- isBlackOrWhite_spec.
  destruct (isBlackOrWhite c); naive_solver.
Qed.

Lemma kept_elem_of (img : Image) (c : RGB) :
  c ∈ kept img <-> c ∈ quantized img /\ ~ near_black_or_white c.
Proof.
  unfold kept. rewrite list_elem_of_filter, isBlackOrWhite_near. tauto.
Qed.

Lemma occurrences_kept (img : Image) (c : RGB) :
  ~ near_black_or_white c ->
  occurrences c (kept img) = occurrences c (quantized img).
Proof.
  intros Hc. apply isBlackOrWhite_near in Hc. unfold occurrences, kept.
  induction (quantized img) as [|q l IH]; [reflexivity|].
  rewrite (filter_cons (fun q => isBlackOrWhite q = false)).
  rewrite (filter_cons (fun q => q = c) q l).
  destruct (decide (isBlackOrWhite q = false)) as [Hq|Hq].
  - rewrite filter_cons. destruct (decide (q = c)); cbn [length]; lia.
  - destruct (decide (q = c)) as [->|]; [contradiction | exact IH].
Qed.

(** ** Dominant colour, against the frame *)

(** C4. For every image with at least one pixel and every order in
    which [range] may visit the map, [mostFrequentColor] returns a
    colour (it never fails), and that colour is the bucket of some point
    of the image. When the bucket of some point is neither near-black
    (all channels at most 16) nor near-white (all channels at least
    240), the result is not near-black or near-white either, and no
    such bucket has more points than it; when every point's bucket is
    near-black or near-white, no bucket at all has more points than the
    result. Buckets and their counts are read off [At] directly. *)
Theorem mostFrequentColor_dominant
  (range : gmap RGB Z -> list (RGB * Z)) (img : Image) :
  range_order range ->
  0 < Dx (Bounds img) -> 0 < Dy (Bounds img) ->
  exists c, mostFrequentColor range img = Some c
    /\ (exists x y, in_bounds (Bounds img) x y /\ point_bucket img x y = c)
    /\ ((exists x y, in_bounds (Bounds img) x y
                     /\ ~ near_black_or_white (point_bucket img x y)) ->
        ~ near_black_or_white c
        /\ forall c', ~ near_black_or_white c' ->
                      bucket_count img c' <= bucket_count img c)
    /\ ((forall x y, in_bounds (Bounds img) x y ->
                     near_black_or_white (point_bucket img x y)) ->
        forall c', bucket_count img c' <= bucket_count img c).
Proof.
  intros Hr Hx Hy. unfold mostFrequentColor.
  destruct (mostFrequentColor_countMap_histogram img) as (m & l & Hm & Hh & Hl).
  rewrite Hm. cbn [mbind option_bind].
  exists (rangeMax (range m)). split; [reflexivity|].
  assert (Hne : l <> []).
  { destruct Hl as [[Hk ->]|[_ ->]];
      [exact Hk | apply quantized_nonempty; assumption]. }
  destruct (rangeMax_histogram _ _ _ Hr Hh Hne) as [Hin Hmax].
  destruct Hl as [[Hk ->]|[Hk ->]].
  - apply kept_elem_of in Hin as [Hq Hnear].
    split; [apply quantized_elem_of, Hq|]. split.
    + intros _. split; [exact Hnear|]. intros c' Hc'.
      rewrite !bucket_count_occurrences.
      rewrite <- (occurrences_kept img c' Hc').
      rewrite <- (occurrences_kept img _ Hnear). apply Hmax.
    + intros Hall. exfalso.
      apply quantized_elem_of in Hq as (x & y & Hb & Hpt).
      apply Hnear. rewrite <- Hpt. apply Hall, Hb.
  - split; [apply quantized_elem_of, Hin|]. split.
    + intros (x & y & Hb & Hn). exfalso.
      assert (Hkk : point_bucket img x y ∈ kept img).
      { apply kept_elem_of. split; [|exact Hn].
        apply quantized_elem_of. exists x, y. split; [exact Hb | reflexivity]. }
      rewrite Hk in Hkk. apply elem_of_nil in Hkk. exact Hkk.
    + intros _ c'. rewrite !bucket_count_occurrences. apply Hmax.
Qed.

Lemma mostFrequentColor_dominant_witness :
  exists c, mostFrequentColor range_canonical darkRedFrame = Some c
    /\ ~ near_black_or_white c
    /\ forall c', ~ near_black_or_white c' ->
                  bucket_count darkRedFrame c' <= bucket_count darkRedFrame c.
Proof.
  assert (Hx : 0 < Dx (Bounds darkRedFrame)) by (vm_compute; reflexivity).
  assert (Hy : 0 < Dy (Bounds darkRedFrame)) by (vm_compute; reflexivity).
  destruct (mostFrequentColor_dominant range_canonical darkRedFrame
              range_canonical_order Hx Hy) as (c & Hc & _ & Hkept & _).
  exists c. split; [exact Hc|]. apply Hkept. exists 2, 0. split.
  - unfold in_bounds. cbn. lia.
  - change (point_bucket darkRedFrame 2 0) with (mkRGB 192 0 0).
    unfold near_black_or_white. cbn. lia.
Defined.

(** The other path on that frame: two of the three pixels are
    near-black, and the red bucket is returned. *)
Example mostFrequentColor_darkRedFrame :
  mostFrequentColor range_canonical darkRedFrame = Some (mkRGB 192 0 0)
  /\ bucket_count darkRedFrame (mkRGB 0 0 0) = 2
  /\ bucket_count darkRedFrame (mkRGB 192 0 0) = 1.
Proof. repeat split; vm_compute; reflexivity. Qed.

(** A frame of one colour has that colour's bucket as its dominant
    colour, whatever [At] gives outside the bounds. *)
Lemma uniform_frame_dominant
  (range : gmap RGB Z -> list (RGB * Z)) (img : Image) (r g b : Z) :
  range_order range ->
  0 < Dx (Bounds img) -> 0 < Dy (Bounds img) ->
  (forall x y, in_bounds (Bounds img) x y ->
               exists a, At img x y = (r, g, b, a)) ->
  mostFrequentColor range img
  = Some (mkRGB (channel_bucket r) (channel_bucket g) (channel_bucket b)).
Proof.
  intros Hr Hx Hy Hat. unfold mostFrequentColor.
  destruct (mostFrequentColor_countMap_histogram img) as (m & l & Hm & Hh & Hl).
  rewrite Hm. cbn [mbind option_bind]. f_equal.
  assert (Hq : forall c, c ∈ quantized img ->
                 c = mkRGB (channel_bucket r) (channel_bucket g)
                           (channel_bucket b)).
  { intros c (x & y & Hin & <-)%quantized_elem_of.
    destruct (Hat x y Hin) as [a Ha]. unfold point_bucket. rewrite Ha.
    reflexivity. }
  assert (Hne : l <> []).
  { destruct Hl as [[Hk ->]|[_ ->]];
      [exact Hk | apply quantized_nonempty; assumption]. }
  destruct (rangeMax_histogram _ _ _ Hr Hh Hne) as [Hin _].
  apply Hq. destruct Hl as [[_ ->]|[_ ->]];
    [apply kept_subseteq, Hin | exact Hin].
Qed.

Lemma solidFrame_At (w h : Z) (c : RGB) (x y : Z) :
  0 <= w -> 0 <= h -> in_bounds (Bounds (solidFrame w h c)) x y ->
  At (solidFrame w h c) x y = (R c * 257, G c * 257, B c * 257, 65535).
Proof.
  unfold solidFrame, rgbaImage, in_bounds, image_Rect. intros Hw Hh.
  destruct (Z.gtb_spec 0 w), (Z.gtb_spec 0 h); try lia.
  cbn. intros [Hx Hy].
  destruct (Z.leb_spec 0 x), (Z.ltb_spec x w), (Z.leb_spec 0 y),
    (Z.ltb_spec y h); try lia.
  reflexivity.
Qed.

(** X6. On an image of at least one pixel whose points inside the
    bounds all show the same 8-bit colour, whatever [At] gives outside
    them, [mostFrequentColor] returns that colour with every channel
    rounded down to a multiple of 16, be it near-black or near-white. *)
Theorem mostFrequentColor_uniform
  (range : gmap RGB Z -> list (RGB * Z)) (img : Image) (p : RGB) :
  range_order range -> valid_RGB p ->
  0 < Dx (Bounds img) -> 0 < Dy (Bounds img) ->
  (forall x y, in_bounds (Bounds img) x y ->
               exists a, At img x y = (R p * 257, G p * 257, B p * 257, a)) ->
  mostFrequentColor range img
  = Some (mkRGB (R p / 16 * 16) (G p / 16 * 16) (B p / 16 * 16)).
Proof.
  intros Hr (HR & HG & HB) Hx Hy Hat.
  rewrite (uniform_frame_dominant range img _ _ _ Hr Hx Hy Hat).
  rewrite !channel_bucket_widened by assumption. reflexivity.
Qed.

Lemma mostFrequentColor_uniform_witness :
  mostFrequentColor range_canonical (solidFrame 3 2 (mkRGB 250 251 252))
  = Some (mkRGB 240 240 240).
Proof.
  apply (mostFrequentColor_uniform range_canonical
           (solidFrame 3 2 (mkRGB 250 251 252)) (mkRGB 250 251 252)).
  - exact range_canonical_order.
  - unfold valid_RGB, is_uint8. cbn. lia.
  - vm_compute. reflexivity.
  - vm_compute. reflexivity.
  - intros x y Hin. exists 65535.
    apply (solidFrame_At 3 2 (mkRGB 250 251 252) x y); [lia | lia | exact Hin].
Defined.

(** ** Change detector, against the channel differences *)

Lemma squaredDistance_differences (a b : RGB) :
  squaredDistance a b = squared_differences a b.
Proof. unfold squaredDistance, squared_differences. cbn zeta. ring. Qed.

Lemma squared_differences_nonneg (a b : RGB) : 0 <= squared_differences a b.
Proof.
  unfold squared_differences.
  pose proof (Z.pow_even_nonneg (R a - R b) 2 ltac:(exists 1; reflexivity)).
  pose proof (Z.pow_even_nonneg (G a - G b) 2 ltac:(exists 1; reflexivity)).
  pose proof (Z.pow_even_nonneg (B a - B b) 2 ltac:(exists 1; reflexivity)).
  lia.
Qed.

Lemma colorDistance_differences (a b : RGB) :
  colorDistance a b
  = PrimFloat.of_uint63 (Uint63.of_Z (squared_differences a b)).
Proof.
  unfold colorDistance, float64_of_int. rewrite squaredDistance_differences.
  pose proof (squared_differences_nonneg a b).
  destruct (Z.ltb_spec (squared_differences a b) 0); [lia | reflexivity].
Qed.

Lemma shouldCallHA_loop (mostColor prev : RGB) :
  valid_RGB mostColor -> valid_RGB prev ->
  shouldCallHA colorChangeThreshold mostColor (Some prev)
  = (32 <=? squared_differences mostColor prev).
Proof.
  intros Hm Hp. cbn [shouldCallHA]. cbn zeta. unfold colorDistance.
  rewrite (proj1 (distance_check_holds _ (squaredDistance_range _ _ Hm Hp))).
  rewrite squaredDistance_differences. reflexivity.
Qed.

(** C5. The emission flag is true exactly when there is no previously
    emitted colour, or the sum of the squared channel differences
    between the current and the previous colour, as a [float64], is at
    least the threshold. It is true on the first cycle of a loop (no
    previous colour) and false for a colour identical to the previous
    one whenever the threshold is positive. In the loop, with a token
    set and its threshold 32.0, a cycle sends the colour and records it
    when there is no previous colour or that sum is at least 32, and
    otherwise sends nothing and keeps the previous colour; in
    particular the first cycle sends and a second cycle with the same
    colour does not. *)
Theorem shouldCallHA_predicate (threshold : float) (mostColor : RGB)
  (prevColor : option RGB) :
  (shouldCallHA threshold mostColor prevColor = true <->
     prevColor = None
     \/ exists prev, prevColor = Some prev
          /\ PrimFloat.leb threshold
               (PrimFloat.of_uint63
                  (Uint63.of_Z (squared_differences mostColor prev))) = true)
  /\ shouldCallHA threshold mostColor None = true
  /\ (PrimFloat.ltb 0 threshold = true ->
      shouldCallHA threshold mostColor (Some mostColor) = false)
  /\ (forall appConfig,
        HA_TOKEN appConfig <> "" ->
        valid_RGB mostColor ->
        (forall prev, prevColor = Some prev -> valid_RGB prev) ->
        let sent := (setLEDState (R mostColor) (G mostColor) (B mostColor)
                                 255 (HA_TOKEN appConfig), Some mostColor) in
        (prevColor = None ->
         emissionStep appConfig mostColor prevColor = sent)
        /\ (forall prev, prevColor = Some prev ->
              32 <= squared_differences mostColor prev ->
              emissionStep appConfig mostColor prevColor = sent)
        /\ (forall prev, prevColor = Some prev ->
              squared_differences mostColor prev < 32 ->
              emissionStep appConfig mostColor prevColor
              = (skippedBelowThreshold, prevColor))
        /\ (forall rest,
              colorUpdateLoop appConfig (mostColor :: mostColor :: rest)
                !! 0%nat
              = Some (setLEDState (R mostColor) (G mostColor) (B mostColor)
                                  255 (HA_TOKEN appConfig))
              /\ colorUpdateLoop appConfig (mostColor :: mostColor :: rest)
                   !! 1%nat
                 = Some skippedBelowThreshold)).
Proof.
  split; [|split; [|split]].
  - destruct prevColor as [prev|]; cbn [shouldCallHA]; cbn zeta.
    + rewrite colorDistance_differences. split.
      * intros H. right. exists prev. split; [reflexivity | exact H].
      * intros [[=]|(prev' & [= <-] & H)]. exact H.
    + split; [intros _; left; reflexivity | reflexivity].
  - reflexivity.
  - intros Hpos. cbn. unfold colorDistance.
    rewrite squaredDistance_refl. apply positive_threshold_above_zero, Hpos.
  - intros appConfig Htoken Hm Hprev sent.
    split; [|split; [|split]].
    + intros ->. apply emissionStep_first, Htoken.
    + intros prev -> Hd. unfold emissionStep.
      rewrite decide_False by exact Htoken.
      rewrite (shouldCallHA_loop _ _ Hm (Hprev prev eq_refl)).
      destruct (Z.leb_spec 32 (squared_differences mostColor prev));
        [reflexivity | lia].
    + intros prev -> Hd. unfold emissionStep.
      rewrite decide_False by exact Htoken.
      rewrite (shouldCallHA_loop _ _ Hm (Hprev prev eq_refl)).
      destruct (Z.leb_spec 32 (squared_differences mostColor prev));
        [lia | reflexivity].
    + intros rest. unfold colorUpdateLoop. cbn [runCycles].
      rewrite (emissionStep_first _ _ Htoken), (emissionStep_same _ _ Htoken).
      split; reflexivity.
Qed.

Lemma shouldCallHA_predicate_witness :
  (32 <= squared_differences (mkRGB 48 0 0) (mkRGB 0 0 0)
   /\ emissionStep (exampleConfig 32) (mkRGB 48 0 0) (Some (mkRGB 0 0 0))
      = (setLEDState 48 0 0 255 (HA_TOKEN (exampleConfig 32)),
         Some (mkRGB 48 0 0)))
  /\ (PrimFloat.ltb 0 32 = true
      /\ shouldCallHA 32 (mkRGB 48 0 0) (Some (mkRGB 48 0 0)) = false).
Proof.
  assert (Htoken : HA_TOKEN (exampleConfig 32) <> "") by discriminate.
  assert (Hv : forall r, 0 <= r < 256 -> valid_RGB (mkRGB r 0 0))
    by (intros r Hr; unfold valid_RGB, is_uint8; cbn; lia).
  assert (Hd : 32 <= squared_differences (mkRGB 48 0 0) (mkRGB 0 0 0))
    by (vm_compute; discriminate).
  assert (Hpos : PrimFloat.ltb 0 32 = true) by reflexivity.
  destruct (shouldCallHA_predicate 32 (mkRGB 48 0 0) (Some (mkRGB 0 0 0)))
    as (_ & _ & _ & Hloop).
  destruct (Hloop (exampleConfig 32) Htoken (Hv 48 ltac:(lia))
              ltac:(intros prev [= <-]; apply Hv; lia))
    as (_ & Hsend & _).
  destruct (shouldCallHA_predicate 32 (mkRGB 48 0 0) None)
    as (_ & _ & Hsame & _).
  split; [split; [exact Hd | exact (Hsend _ eq_refl Hd)]|].
  split; [exact Hpos | exact (Hsame Hpos)].
Defined.

(** ** The scenario at threshold 32.0 *)



